(** * Word frequencies and Zipf analysis: the text pipeline and the two
      read endpoints of the backend

    Shallow embedding of [backend/app/text_processor.py], [backend/app/cache.py],
    [backend/app/models.py] and the handlers [get_frequency] and [get_zipf] of
    [backend/app/main.py].

    Conventions.
    - A Python [str] is a list of Unicode code points ([N]).
    - A Python [int] is a [Z].
    - A Python [float] is given by its value, a rational ([Q]).  [float(k)]
      is [float_of_int k], the binary64 nearest to [k], which is [k] itself
      when [|k| <= 2^53] and can raise [OverflowError];
      [compute_zipf_constant_binary64] is the function with that conversion.
      [compute_zipf_constant], which the handlers use, takes [float(k)] to be
      [inject_Z k]: the two agree on every table whose largest count is
      within [2^53] ([compute_zipf_constant_binary64_exact]).  [/] is [Qdiv],
      the quotient before rounding: what is stated of quotients is their
      order, which rounding keeps, and their value where binary64 is exact.
    - A [Counter] is an insertion-ordered dictionary; since the order of its
      items decides how [most_common] breaks ties, it is an association list
      whose keys are pairwise distinct.
    - The cache is a dictionary that is only looked up here: a [gmap]. *)

From Stdlib Require Import QArith Ascii String.
From stdpp Require Import base numbers list sorting strings gmap.

Local Open Scope Z_scope.

(** ** Strings *)

Abbreviation str := (list N).

(** A literal of the source, as a list of code points. *)
Definition lit (s : string) : str := N_of_ascii <$> list_ascii_of_string s.

(** [Py_UNICODE_ISSPACE]: the white space of [\s] in a [str] pattern, of
    [str.split()] and of [str.strip()]. *)
Definition isspace (c : N) : bool :=
  ((0x09 <=? c) && (c <=? 0x0D) || (0x1C <=? c) && (c <=? 0x20)
   || (c =? 0x85) || (c =? 0xA0) || (c =? 0x1680)
   || (0x2000 <=? c) && (c <=? 0x200A)
   || (c =? 0x2028) || (c =? 0x2029) || (c =? 0x202F) || (c =? 0x205F)
   || (c =? 0x3000))%N.

(** The character class [a-z]. *)
Definition is_az (c : N) : bool := ((0x61 <=? c) && (c <=? 0x7A))%N.

Definition SPACE : N := 0x20%N.

(** [re.sub(r"[^a-z\s]", " ", text)]: the pattern matches one character at a
    time, so the substitution is a map. *)
Definition sub_non_alpha (text : str) : str :=
  (λ c, if is_az c || isspace c then c else SPACE) <$> text.

(** [re.sub(r"\s+", " ", text)]: every maximal run of white space becomes one
    space.  [in_run] tells that the previous character was white space. *)
Fixpoint sub_spaces_from (in_run : bool) (text : str) : str :=
  match text with
  | [] => []
  | c :: rest =>
      if isspace c
      then (if in_run then sub_spaces_from true rest
            else SPACE :: sub_spaces_from true rest)
      else c :: sub_spaces_from false rest
  end.

Definition sub_spaces (text : str) : str := sub_spaces_from false text.

(** [str.strip()] with no argument. *)
Fixpoint lstrip (s : str) : str :=
  match s with
  | [] => []
  | c :: rest => if isspace c then lstrip rest else s
  end.

Fixpoint rstrip (s : str) : str :=
  match s with
  | [] => []
  | c :: rest =>
      match rstrip rest with
      | [] => if isspace c then [] else [c]
      | rest' => c :: rest'
      end
  end.

Definition strip (s : str) : str := rstrip (lstrip s).

(** [str.split()] with no argument: the maximal runs of characters that are
    not white space.  [split_go s] is the run that starts [s] (empty when [s]
    starts with white space) and the words after it. *)
Definition push_word (w : str) (ws : list str) : list str :=
  match w with
  | [] => ws
  | _ => w :: ws
  end.

Fixpoint split_go (s : str) : str * list str :=
  match s with
  | [] => ([], [])
  | c :: rest =>
      let '(w, ws) := split_go rest in
      if isspace c then ([], push_word w ws) else (c :: w, ws)
  end.

Definition split (s : str) : list str :=
  let '(w, ws) := split_go s in push_word w ws.

(** [" ".join(words)]. *)
Fixpoint join (words : list str) : str :=
  match words with
  | [] => []
  | [w] => w
  | w :: rest => w ++ SPACE :: join rest
  end.

(** [str.lower] on ASCII text; code points outside [A-Z] are left alone. *)
Definition ascii_lower_char (c : N) : N :=
  if ((0x41 <=? c) && (c <=? 0x5A))%N then (c + 0x20)%N else c.

Definition ascii_lower (s : str) : str := ascii_lower_char <$> s.

Definition is_ascii (c : N) : bool := (c <? 0x80)%N.

(** ** text_processor.py *)

Section TextProcessor.

(** [str.lower] is the interpreter's, driven by the Unicode database, and
    is not a function of one character (final sigma); it is taken as it
    comes.  Where a statement needs to know what it does, it says so. *)
Variable lower : str → str.

Definition normalize_text (text : str) : str :=
  let text := lower text in
  let text := sub_non_alpha text in
  let text := sub_spaces text in
  strip text.

Definition tokenize (text : str) : list str :=
  match text with
  | [] => []
  | _ => split text
  end.

End TextProcessor.

(** What [str.lower] does on ASCII text. *)
Definition lower_on_ascii (lower : str → str) : Prop :=
  ∀ s, Forall (λ c, is_ascii c = true) s → lower s = ascii_lower s.

(** ** collections.Counter *)

Module Counter.

(** The items, in insertion order. *)
Abbreviation t := (list (str * Z)).

(** [mapping[elem] = mapping.get(elem, 0) + 1]: a key that is present keeps
    its place, a new key goes last. *)
Fixpoint incr (elem : str) (c : t) : t :=
  match c with
  | [] => [(elem, 0 + 1)]
  | (k, v) :: rest =>
      if decide (k = elem) then (k, v + 1) :: rest
      else (k, v) :: incr elem rest
  end.

(** [Counter(iterable)]. *)
Definition of_list (iterable : list str) : t :=
  foldl (λ c elem, incr elem c) [] iterable.

Definition keys (c : t) : list str := fst <$> c.
Definition values (c : t) : list Z := snd <$> c.
Definition len (c : t) : Z := Z.of_nat (length c).

(** [sorted(self.items(), key=itemgetter(1), reverse=True)]: a stable sort,
    items of equal count keep their insertion order. *)
Fixpoint insert_desc (x : str * Z) (l : t) : t :=
  match l with
  | [] => [x]
  | y :: l' => if x.2 <? y.2 then y :: insert_desc x l' else x :: l
  end.

Definition most_common (c : t) : t := foldr insert_desc [] c.

(** [heapq.nlargest(1, self.items(), key=itemgetter(1))], which is
    [max(it, key=key)]: the first item of largest count. *)
Fixpoint max_item (best : str * Z) (l : t) : str * Z :=
  match l with
  | [] => best
  | x :: l' => if best.2 <? x.2 then max_item x l' else max_item best l'
  end.

Definition most_common_1 (c : t) : t :=
  match c with
  | [] => []
  | x :: l => [max_item x l]
  end.

End Counter.

(** The built-in [sum] on integers. *)
Definition sum (l : list Z) : Z := foldr Z.add 0 l.

(** The largest count of a table, [0] for the empty one. *)
Definition max_count (c : Counter.t) : Z :=
  match Counter.values c with
  | [] => 0
  | v :: vs => foldr Z.max v vs
  end.

(** The data model's invariant of a frequency table: distinct keys, counts
    at least one. *)
Definition FrequencyTable (c : Counter.t) : Prop :=
  NoDup (Counter.keys c) ∧ Forall (λ kv, 1 ≤ kv.2) c.

Section Frequencies.

Variable lower : str → str.

Definition compute_frequencies (text : str) : Counter.t :=
  let normalized := normalize_text lower text in
  let tokens := tokenize normalized in
  Counter.of_list tokens.

End Frequencies.

(** [most_common(1)[0][1]] cannot fail on a table that is not empty
    ([most_common_1_head] below); the last branch is never taken.
    [float(n)] is taken to be [n]: exact when [|n| <= 2^53], see
    [compute_zipf_constant_binary64] for the conversion as binary64 does it. *)
Definition compute_zipf_constant (frequencies : Counter.t) : Q :=
  match frequencies with
  | [] => 0%Q
  | _ =>
      match Counter.most_common_1 frequencies !! 0%nat with
      | Some (_, n) => inject_Z n
      | None => 0%Q
      end
  end.

(** *** [float(n)] in binary64 *)

Inductive exn := OverflowError | IndexError.

(** [float(n)] of an [int]: [n] itself when it fits the 53 bits of a binary64
    significand; otherwise the 53 leading bits [q] of [|n|], rounded to
    nearest with ties to even, the [e] bits dropped replaced by zeros, and the
    sign of [n].  ("int too large to convert to float" when the result would
    be [2^1024] or more.)  The float is given by its value. *)
Definition float_of_int (n : Z) : exn + Q :=
  let a := Z.abs n in
  if a <? 2 ^ 53 then inr (inject_Z n)
  else
    let e := Z.log2 a - 52 in
    let q := a / 2 ^ e in
    let r := a mod 2 ^ e in
    let half := 2 ^ (e - 1) in
    let q' := if (half <? r) || ((r =? half) && Z.odd q) then q + 1 else q in
    let v := q' * 2 ^ e in
    if 2 ^ 1024 <=? v then inl OverflowError
    else inr (inject_Z (Z.sgn n * v)).

(** [compute_zipf_constant] with [float] as binary64 has it. *)
Definition compute_zipf_constant_binary64 (frequencies : Counter.t) : exn + Q :=
  match frequencies with
  | [] => inr 0%Q
  | _ =>
      match Counter.most_common_1 frequencies !! 0%nat with
      | Some (_, n) => float_of_int n
      | None => inl IndexError
      end
  end.

(** ** cache.py *)

Module CachedText.
Record t := mk { title : str; content : str; frequencies : Counter.t }.
End CachedText.

Module FrequencyCache.

Abbreviation t := (gmap str CachedText.t).

Definition get (cache : t) (text_id : str) : option CachedText.t :=
  cache !! text_id.

Definition set (cache : t) (text_id : str) (data : CachedText.t) : t :=
  <[text_id := data]> cache.

Definition has (cache : t) (text_id : str) : bool :=
  bool_decide (is_Some (cache !! text_id)).

Definition clear (cache : t) : t := ∅.

End FrequencyCache.

(** ** models.py *)

Module WordFrequency.
Record t := mk { word : str; count : Z }.
End WordFrequency.

Module FrequencyResponse.
Record t := mk {
  text_id : str;
  title : str;
  total_words : Z;
  unique_words : Z;
  frequencies : list WordFrequency.t }.
End FrequencyResponse.

Module ZipfDataPoint.
Record t := mk {
  rank : Z;
  word : str;
  frequency : Z;
  expected_frequency : Q }.
End ZipfDataPoint.

Module ZipfResponse.
Record t := mk {
  text_id : str;
  title : str;
  total_words : Z;
  zipf_constant : Q;
  data : list ZipfDataPoint.t }.
End ZipfResponse.

(** ** main.py *)

Record HTTPException := mkHTTPException { status_code : Z; detail : str }.

(** The computations on a frequency table that a handler may start. *)
Inductive call :=
  | call_compute_zipf_constant
  | call_most_common
  | call_sum_values
  | call_len.

(** A handler either raises or returns, and logs the computations it
    started, in order. *)
Definition handler (A : Type) : Type := list call * (HTTPException + A).

Definition raise {A} (e : HTTPException) : handler A := ([], inl e).

Definition invoke {A} (c : call) (a : A) : handler A := ([c], inr a).

#[export] Instance handler_ret : MRet handler := λ A a, ([], inr a).

#[export] Instance handler_bind : MBind handler := λ A B k m,
  match m with
  | (log, inl e) => (log, inl e)
  | (log, inr a) => let '(log', r) := k a in (log ++ log', r)
  end.

Definition calls {A} (m : handler A) : list call := m.1.
Definition outcome {A} (m : handler A) : HTTPException + A := m.2.

(** f"Text '{text_id}' not found" *)
Definition not_found_detail (text_id : str) : str :=
  lit "Text '" ++ text_id ++ lit "' not found".

Definition get_frequency (cache : FrequencyCache.t) (text_id : str)
  : handler FrequencyResponse.t :=
  match FrequencyCache.get cache text_id with
  | None => raise (mkHTTPException 404 (not_found_detail text_id))
  | Some cached =>
      ranked ← invoke call_most_common
                 (Counter.most_common (CachedText.frequencies cached));
      let frequencies :=
        (λ '(word, count), WordFrequency.mk word count) <$> ranked in
      total_words ← invoke call_sum_values
                      (sum (Counter.values (CachedText.frequencies cached)));
      unique_words ← invoke call_len
                       (Counter.len (CachedText.frequencies cached));
      mret (FrequencyResponse.mk text_id (CachedText.title cached)
             total_words unique_words frequencies)
  end.

(** [enumerate(iterable, start)]. *)
Fixpoint enumerate {A} (start : Z) (l : list A) : list (Z * A) :=
  match l with
  | [] => []
  | x :: l' => (start, x) :: enumerate (start + 1) l'
  end.

(** The test of the conditional expression in the loop of [get_zipf]. *)
Definition rank_guard (rank : Z) : bool := rank >? 0.

(** One turn of the loop of [get_zipf].  [zipf_constant / rank] is the
    quotient before binary64 rounds it: rounding is monotone, so the order of
    these quotients is the order of the floats, but a product such as
    [expected * rank] need not come back to the constant. *)
Definition zipf_point (zipf_constant : Q) (item : Z * (str * Z))
  : ZipfDataPoint.t :=
  let '(rank, (word, frequency)) := item in
  let expected :=
    if rank_guard rank then (zipf_constant / inject_Z rank)%Q else 0%Q in
  ZipfDataPoint.mk rank word frequency expected.

Definition zipf_data (zipf_constant : Q) (ranked : Counter.t)
  : list ZipfDataPoint.t :=
  zipf_point zipf_constant <$> enumerate 1 ranked.

Definition get_zipf (cache : FrequencyCache.t) (text_id : str)
  : handler ZipfResponse.t :=
  match FrequencyCache.get cache text_id with
  | None => raise (mkHTTPException 404 (not_found_detail text_id))
  | Some cached =>
      zipf_constant ← invoke call_compute_zipf_constant
                        (compute_zipf_constant (CachedText.frequencies cached));
      total_words ← invoke call_sum_values
                      (sum (Counter.values (CachedText.frequencies cached)));
      ranked ← invoke call_most_common
                 (Counter.most_common (CachedText.frequencies cached));
      let data := zipf_data zipf_constant ranked in
      mret (ZipfResponse.mk text_id (CachedText.title cached)
             total_words zipf_constant data)
  end.

(** The series of a table, as [get_zipf] builds it. *)
Definition zipf_series (table : Counter.t) : list ZipfDataPoint.t :=
  zipf_data (compute_zipf_constant table) (Counter.most_common table).

(** ** More of collections.Counter *)

(** [c[key]]: the count of a key, [0] for a key that is missing
    ([Counter.__missing__]). *)
Fixpoint Counter_getitem (c : Counter.t) (key : str) : Z :=
  match c with
  | [] => 0
  | (k, v) :: rest => if decide (k = key) then v else Counter_getitem rest key
  end.

(** ** More of cache.py: the dictionary with its order

    [FrequencyCache] above keeps what a lookup needs.  [list_ids] shows the
    order of the dictionary, which is the order of insertion; here the
    dictionary [_cache] is the list of its items in that order, keys
    pairwise distinct, and [view] is the lookup table it stands for. *)

Module OrderedFrequencyCache.

Abbreviation t := (list (str * CachedText.t)).

Fixpoint get (cache : t) (text_id : str) : option CachedText.t :=
  match cache with
  | [] => None
  | (k, v) :: rest => if decide (k = text_id) then Some v else get rest text_id
  end.

(** [self._cache[text_id] = data]: a key that is present keeps its place. *)
Fixpoint set (cache : t) (text_id : str) (data : CachedText.t) : t :=
  match cache with
  | [] => [(text_id, data)]
  | (k, v) :: rest =>
      if decide (k = text_id) then (k, data) :: rest
      else (k, v) :: set rest text_id data
  end.

Definition has (cache : t) (text_id : str) : bool :=
  bool_decide (text_id ∈ cache.*1).

Definition list_ids (cache : t) : list str := cache.*1.

Definition clear (cache : t) : t := [].

Definition view (cache : t) : FrequencyCache.t := list_to_map cache.

End OrderedFrequencyCache.

(** ** More of models.py *)

Module TextInfo.
Record t := mk { id : str; title : str; word_count : Z }.
End TextInfo.

(** ** More of main.py *)

(** [text_id.replace("_", " ")]. *)
Definition replace_underscores (s : str) : str :=
  (λ c, if (c =? 0x5F)%N then SPACE else c) <$> s.

Section Main.

Variable lower : str → str.

(** [str.title], the interpreter's. *)
Variable title : str → str.

(** One turn of the loop of [load_texts_from_disk], for the file of stem
    [text_id] and of content [content] (as read with [errors="ignore"]). *)
Definition load_text (cache : OrderedFrequencyCache.t) (txt_file : str * str)
  : OrderedFrequencyCache.t :=
  let '(text_id, content) := txt_file in
  if OrderedFrequencyCache.has cache text_id then cache
  else
    let frequencies := compute_frequencies lower content in
    let title := title (replace_underscores text_id) in
    OrderedFrequencyCache.set cache text_id
      (CachedText.mk title content frequencies).

(** [data_dir] is [None] when [DATA_DIR] does not exist, and otherwise the
    files that [DATA_DIR.glob("*.txt")] yields, in that order, each as its
    stem and its content. *)
Definition load_texts_from_disk
  (data_dir : option (list (str * str))) (cache : OrderedFrequencyCache.t)
  : OrderedFrequencyCache.t :=
  match data_dir with
  | None => cache
  | Some txt_files => foldl load_text cache txt_files
  end.

(** The cache after the call, and the response. *)
Definition list_texts
  (data_dir : option (list (str * str))) (cache : OrderedFrequencyCache.t)
  : OrderedFrequencyCache.t * list TextInfo.t :=
  let cache := load_texts_from_disk data_dir cache in
  let result :=
    omap (λ text_id,
            match OrderedFrequencyCache.get cache text_id with
            | Some cached =>
                Some (TextInfo.mk text_id (CachedText.title cached)
                        (sum (Counter.values (CachedText.frequencies cached))))
            | None => None
            end)
      (OrderedFrequencyCache.list_ids cache) in
  (cache, result).

End Main.

(** Every entry holds the frequencies of its own content, as the entries
    that [load_texts_from_disk] makes do. *)
Definition loaded_from_content (lower : str → str) (cache : OrderedFrequencyCache.t)
  : Prop :=
  Forall (λ kv, CachedText.frequencies kv.2
                = compute_frequencies lower (CachedText.content kv.2)) cache.

(** A cache that holds one text, not the one on disk. *)
Definition stale_cache : OrderedFrequencyCache.t :=
  [(lit "moby_dick", CachedText.mk (lit "Moby Dick") (lit "old text") [(lit "old", 7)])].

(** ** Searching and slicing a string *)

(** [s.startswith(sub)]. *)
Fixpoint starts_with (sub s : str) : bool :=
  match sub, s with
  | [], _ => true
  | _ :: _, [] => false
  | a :: sub', b :: s' => (a =? b)%N && starts_with sub' s'
  end.

(** The lowest index at which [sub] occurs in [s], counted from [i], or -1. *)
Fixpoint find_at (i : Z) (sub s : str) : Z :=
  if starts_with sub s then i
  else
    match s with
    | [] => -1
    | _ :: s' => find_at (i + 1) sub s'
    end.

(** [s.find(sub)]. *)
Definition find (s sub : str) : Z := find_at 0 sub s.

(** [s.find(sub, start)]: a negative [start] counts from the end, and past
    the end nothing is found. *)
Definition find_from (s sub : str) (start : Z) : Z :=
  let len := Z.of_nat (length s) in
  let start := if start <? 0 then Z.max 0 (start + len) else start in
  if len <? start then -1
  else find_at start sub (drop (Z.to_nat start) s).

(** An index of a slice, brought into [0 .. len]. *)
Definition slice_index (len i : Z) : Z :=
  if i <? 0 then Z.max 0 (i + len) else Z.min i len.

(** [s[start:stop]]. *)
Definition slice (s : str) (start stop : Z) : str :=
  let len := Z.of_nat (length s) in
  let a := slice_index len start in
  let b := slice_index len stop in
  take (Z.to_nat (b - a)) (drop (Z.to_nat a) s).

Definition NEWLINE : N := 0x0A%N.

(** ** gutenberg.py *)

Module TextMetadata.
Record t := mk {
  id : Z;
  title : str;
  author : str;
  genre : str;
  language : str;
  size_bytes : Z;
  filename : str;
  download_url : str }.
End TextMetadata.

(** The value of a genre in [by_genre]: [{"count": ..., "size_bytes": ...}]. *)
Module GenreStats.
Record t := mk { count : Z; size_bytes : Z }.
End GenreStats.

(** The dictionary that [get_stats] returns. *)
Module Stats.
Record t := mk {
  total_texts : Z;
  total_size_bytes : Z;
  size_gb : Q;
  by_genre : list (str * GenreStats.t) }.
End Stats.

(** What one download gave, as [download_corpus] gathers it. *)
Inductive download_result :=
  | Downloaded (m : TextMetadata.t)
  | NotDownloaded
  | Raised.

Module GutenbergDownloader.

(** The fields that the methods below read and write. *)
Record t := mk { metadata : list TextMetadata.t; total_size : Z }.

(** [__init__]. *)
Definition init : t := mk [] 0.

Definition start_markers : list str :=
  [lit "*** START OF THIS PROJECT GUTENBERG";
   lit "*** START OF THE PROJECT GUTENBERG";
   lit "*END*THE SMALL PRINT"].

Definition end_markers : list str :=
  [lit "*** END OF THIS PROJECT GUTENBERG";
   lit "*** END OF THE PROJECT GUTENBERG";
   lit "End of Project Gutenberg";
   lit "End of the Project Gutenberg"].

(** The first loop of [_clean_text]: it stops at the first marker that is
    found and has a newline after it. *)
Fixpoint find_start_pos (text : str) (markers : list str) : Z :=
  match markers with
  | [] => 0
  | marker :: rest =>
      let pos := find text marker in
      if negb (pos =? -1) then
        let newline_pos := find_from text [NEWLINE] pos in
        if negb (newline_pos =? -1) then newline_pos + 1
        else find_start_pos text rest
      else find_start_pos text rest
  end.

(** The second loop of [_clean_text]. *)
Fixpoint find_end_pos (text : str) (start_pos : Z) (markers : list str) : Z :=
  match markers with
  | [] => Z.of_nat (length text)
  | marker :: rest =>
      let pos := find text marker in
      if negb (pos =? -1) && (pos >? start_pos) then pos
      else find_end_pos text start_pos rest
  end.

Definition _clean_text (text : str) : str :=
  let start_pos := find_start_pos text start_markers in
  let end_pos := find_end_pos text start_pos end_markers in
  strip (slice text start_pos end_pos).

(** The nine characters of the class that the first [re.sub] of
    [_sanitize_filename] removes: the angle brackets, the colon, the double
    quote, the slash, the backslash, the bar, the question mark and the
    star. *)
Definition is_invalid_char (c : N) : bool :=
  ((c =? 0x3C) || (c =? 0x3E) || (c =? 0x3A) || (c =? 0x22) || (c =? 0x2F)
   || (c =? 0x5C) || (c =? 0x7C) || (c =? 0x3F) || (c =? 0x2A))%N.

Definition UNDERSCORE : N := 0x5F%N.

(** [re.sub(r'\s+', '_', s)]. *)
Fixpoint sub_spaces_with_underscore (in_run : bool) (s : str) : str :=
  match s with
  | [] => []
  | c :: rest =>
      if isspace c
      then (if in_run then sub_spaces_with_underscore true rest
            else UNDERSCORE :: sub_spaces_with_underscore true rest)
      else c :: sub_spaces_with_underscore false rest
  end.

Definition _sanitize_filename (name : str) : str :=
  let sanitized := filter (λ c, is_invalid_char c = false) name in
  let sanitized := sub_spaces_with_underscore false sanitized in
  let sanitized := take 50 sanitized in
  sanitized.

(** The loop of [download_corpus] over the gathered results. *)
Definition collect_result (self : t) (result : download_result) : t :=
  match result with
  | Downloaded m =>
      mk (metadata self ++ [m]) (total_size self + TextMetadata.size_bytes m)
  | NotDownloaded => self
  | Raised => self
  end.

Definition collect_results (self : t) (results : list download_result) : t :=
  foldl collect_result self results.

(** One turn of the loop of [get_stats]. *)
Fixpoint by_genre_add (m : TextMetadata.t) (by_genre : list (str * GenreStats.t))
  : list (str * GenreStats.t) :=
  match by_genre with
  | [] =>
      [(TextMetadata.genre m,
        GenreStats.mk (0 + 1) (0 + TextMetadata.size_bytes m))]
  | (g, st) :: rest =>
      if decide (g = TextMetadata.genre m)
      then (g, GenreStats.mk (GenreStats.count st + 1)
                 (GenreStats.size_bytes st + TextMetadata.size_bytes m)) :: rest
      else (g, st) :: by_genre_add m rest
  end.

(** [metadata_file] is [None] when the file does not exist, and otherwise
    the two numbers read from it. *)
Definition get_stats (self : t) (metadata_file : option (Z * Z)) : Stats.t :=
  match metadata self, metadata_file with
  | [], Some (total_texts, total_size_bytes) =>
      Stats.mk total_texts total_size_bytes
        (inject_Z total_size_bytes / inject_Z (1024 ^ 3))%Q []
  | _, _ =>
      let by_genre := foldl (λ acc m, by_genre_add m acc) [] (metadata self) in
      Stats.mk (Z.of_nat (length (metadata self))) (total_size self)
        (inject_Z (total_size self) / inject_Z (1024 ^ 3))%Q by_genre
  end.

End GutenbergDownloader.

(** ** process_text.py *)

Module ProcessText.

Definition start_markers : list str :=
  [lit "*** START OF THE PROJECT GUTENBERG EBOOK";
   lit "*** START OF THIS PROJECT GUTENBERG EBOOK";
   lit "*END*THE SMALL PRINT!"].

Definition end_markers : list str :=
  [lit "*** END OF THE PROJECT GUTENBERG EBOOK";
   lit "*** END OF THIS PROJECT GUTENBERG EBOOK";
   lit "End of Project Gutenberg"].

(** The first loop of [extract_gutenberg_text]: it stops at the first
    marker that is found, newline after it or not. *)
Fixpoint find_start_idx (text : str) (markers : list str) : Z :=
  match markers with
  | [] => 0
  | marker :: rest =>
      let idx := find text marker in
      if negb (idx =? -1) then find_from text [NEWLINE] idx + 1
      else find_start_idx text rest
  end.

Fixpoint find_end_idx (text : str) (markers : list str) : Z :=
  match markers with
  | [] => Z.of_nat (length text)
  | marker :: rest =>
      let idx := find text marker in
      if negb (idx =? -1) then idx else find_end_idx text rest
  end.

Definition extract_gutenberg_text (text : str) : str :=
  let start_idx := find_start_idx text start_markers in
  let end_idx := find_end_idx text end_markers in
  slice text start_idx end_idx.

End ProcessText.

(** [sub] occurs in [s]. *)
Definition occurs (sub s : str) : Prop := ∃ pre post, s = pre ++ sub ++ post.

(** [part] is a stretch of [s]. *)
Definition part_of (part s : str) : Prop := ∃ pre post, s = pre ++ part ++ post.

(** No white space at either end. *)
Definition stripped (s : str) : Prop :=
  (∀ c rest, s = c :: rest → isspace c = false)
  ∧ (∀ init c, s = init ++ [c] → isspace c = false).

(** A downloaded text: a header line, one line of content, a footer line. *)
Definition gutenberg_sample : str :=
  lit "*** START OF THIS PROJECT GUTENBERG EBOOK MOBY DICK ***" ++ [NEWLINE]
  ++ lit "Call me Ishmael." ++ [NEWLINE]
  ++ lit "*** END OF THIS PROJECT GUTENBERG EBOOK MOBY DICK ***" ++ [NEWLINE].

(** [by_genre.get(genre)]. *)
Fixpoint by_genre_get (by_genre : list (str * GenreStats.t)) (genre : str)
  : option GenreStats.t :=
  match by_genre with
  | [] => None
  | (g, st) :: rest => if decide (g = genre) then Some st else by_genre_get rest genre
  end.

(** The texts that were downloaded, among the results gathered. *)
Definition downloaded (results : list download_result) : list TextMetadata.t :=
  omap (λ r, match r with Downloaded m => Some m | _ => None end) results.

(** The texts of one genre. *)
Definition of_genre (genre : str) (metadata : list TextMetadata.t)
  : list TextMetadata.t :=
  filter (λ m, TextMetadata.genre m = genre) metadata.

(** The dictionary that [process_text] returns and writes. *)
Module ProcessTextResult.
Record t := mk { total_words : Z; unique_words : Z; frequencies : Counter.t }.
End ProcessTextResult.

Section ProcessTextFile.

Variable lower : str → str.

(** The class [\w] of a [str] pattern, the interpreter's. *)
Variable is_word_char : N → bool.

(** [str.isdigit], the interpreter's. *)
Variable isdigit : str → bool.

(** The words that [process_text] counts in the text it has extracted. *)
Definition process_text_words (text : str) : list str :=
  (* re.sub with the class [^\w\s] and the empty replacement *)
  let text := filter (λ c, is_word_char c || isspace c = true) text in
  let words := split (lower text) in
  filter (λ w, negb (bool_decide (w = [])) && negb (isdigit w) = true) words.

(** [process_text], from the content of the input file to the result, which
    is also what is written to the output file. *)
Definition process_text (content : str) : ProcessTextResult.t :=
  let text := ProcessText.extract_gutenberg_text content in
  let words := process_text_words text in
  let word_counts := Counter.of_list words in
  (* dict(sorted(word_counts.items(), key=lambda item: item[1], reverse=True)) *)
  let sorted_word_counts := Counter.most_common word_counts in
  let total_words := sum (Counter.values sorted_word_counts) in
  let unique_words := Counter.len sorted_word_counts in
  ProcessTextResult.mk total_words unique_words sorted_word_counts.

End ProcessTextFile.


(** A cache that holds one text, made of digits and punctuation only. *)
Definition blank_cache : FrequencyCache.t :=
  FrequencyCache.set ∅ (lit "blank")
    (CachedText.mk (lit "Blank") (lit "1234 -- 5678 !?")
       (compute_frequencies ascii_lower (lit "1234 -- 5678 !?"))).

(** ** Predicates of the statements *)

(** What a character of a normalized text can be. *)
Definition az_or_space (c : N) : Prop := is_az c = true ∨ c = SPACE.

(** A word as [split] yields it: not empty, free of white space. *)
Definition is_word (w : str) : Prop :=
  w ≠ [] ∧ Forall (λ c, isspace c = false) w.

(** The ASCII letters, of either case. *)
Definition is_ascii_letter (c : N) : bool :=
  ((0x41 <=? c) && (c <=? 0x5A) || (0x61 <=? c) && (c <=? 0x7A))%N.

(** Descending counts. *)
Definition by_count_desc (a b : str * Z) : Prop := b.2 ≤ a.2.

(** A table with two ties. *)
Definition tied_table : Counter.t :=
  [(lit "cat", 1); (lit "the", 2); (lit "dog", 1); (lit "and", 2)].

(** The text and the cache of the tests of the endpoints. *)
Definition sample_text : str :=
  lit "The quick brown fox jumps over the lazy dog. The fox is quick.".

Definition sample_cache : FrequencyCache.t :=
  FrequencyCache.set ∅ (lit "sample")
    (CachedText.mk (lit "Sample Text") sample_text
       (compute_frequencies ascii_lower sample_text)).

(** [\w] and [str.isdigit] on ASCII text. *)
Definition ascii_is_word_char (c : N) : bool :=
  (is_ascii_letter c || (0x30 <=? c) && (c <=? 0x39) || (c =? 0x5F))%N.

Definition ascii_isdigit (w : str) : bool :=
  negb (bool_decide (w = [])) && forallb (λ c, (0x30 <=? c) && (c <=? 0x39))%N w.

(** ** Running the code *)

Example normalize_hello :
  normalize_text ascii_lower (lit "Hello, World!") = lit "hello world".
Proof. reflexivity. Qed.

Example tokenize_tabs :
  tokenize (normalize_text ascii_lower
              [0x41; 0x09; 0x0A; 0x31; 0x2D; 0x62; 0x3000; 0x63; 0xA0]%N)
  = [lit "a"; lit "b"; lit "c"].
Proof. reflexivity. Qed.

Example frequencies_the_cat :
  compute_frequencies ascii_lower (lit "the cat and the dog")
  = [(lit "the", 2); (lit "cat", 1); (lit "and", 1); (lit "dog", 1)].
Proof. reflexivity. Qed.

Example float_of_int_small : float_of_int 100 = inr 100%Q.
Proof. reflexivity. Qed.

Example float_of_int_tie_down :
  float_of_int (2 ^ 53 + 1) = inr (inject_Z (2 ^ 53)).
Proof. reflexivity. Qed.

Example float_of_int_tie_up :
  float_of_int (2 ^ 53 + 3) = inr (inject_Z (2 ^ 53 + 4)).
Proof. reflexivity. Qed.

Example float_of_int_negative :
  float_of_int (- (2 ^ 54 + 3)) = inr (inject_Z (- (2 ^ 54 + 4))).
Proof. reflexivity. Qed.

Example float_of_int_largest :
  float_of_int (2 ^ 1024 - 2 ^ 970 - 1)
  = inr (inject_Z ((2 ^ 53 - 1) * 2 ^ 971)).
Proof. vm_compute. reflexivity. Qed.

Example float_of_int_overflow :
  float_of_int (2 ^ 1024 - 2 ^ 970) = inl OverflowError
  ∧ float_of_int (2 ^ 1024) = inl OverflowError.
Proof. split; vm_compute; reflexivity. Qed.

Example sample_zipf_head :
  ∃ r, outcome (get_zipf sample_cache (lit "sample")) = inr r
       ∧ ZipfResponse.zipf_constant r = 3%Q
       ∧ ZipfResponse.data r !! 0%nat
         = Some (ZipfDataPoint.mk 1 (lit "the") 3 (3 / 1)%Q).
Proof. vm_compute. eexists. split; [reflexivity|]. split; reflexivity. Qed.

(** ** Characters *)

Ltac char_arith :=
  unfold is_az, isspace, is_ascii, ascii_lower_char, SPACE in *;
  repeat match goal with
         | H : context [(_ && _)%bool = true] |- _ => rewrite andb_true_iff in H
         | H : context [(_ || _)%bool = true] |- _ => rewrite orb_true_iff in H
         | H : context [(_ && _)%bool = false] |- _ => rewrite andb_false_iff in H
         | H : context [(_ || _)%bool = false] |- _ => rewrite orb_false_iff in H
         | |- context [(_ && _)%bool = true] => rewrite andb_true_iff
         | |- context [(_ || _)%bool = true] => rewrite orb_true_iff
         | |- context [(_ && _)%bool = false] => rewrite andb_false_iff
         | |- context [(_ || _)%bool = false] => rewrite orb_false_iff
         end;
  rewrite ?N.leb_le, ?N.leb_gt, ?N.eqb_eq, ?N.eqb_neq, ?N.ltb_lt, ?N.ltb_ge in *;
  lia.

Lemma is_az_not_space c : is_az c = true → isspace c = false.
Proof. intros H. char_arith. Qed.

Lemma isspace_SPACE : isspace SPACE = true.
Proof. reflexivity. Qed.

Lemma is_az_SPACE : is_az SPACE = false.
Proof. reflexivity. Qed.

Lemma az_or_space_isspace c : az_or_space c → isspace c = true → c = SPACE.
Proof.
  intros [Haz | ->] Hsp; [|done].
  apply is_az_not_space in Haz. congruence.
Qed.

Lemma az_or_space_not_space c : az_or_space c → isspace c = false → is_az c = true.
Proof. intros [Haz | ->] Hsp; [done|]. by rewrite isspace_SPACE in Hsp. Qed.

(** ** The passes of [normalize_text] *)

Lemma sub_non_alpha_chars text :
  Forall (λ c, is_az c = true ∨ isspace c = true) (sub_non_alpha text).
Proof.
  unfold sub_non_alpha. apply Forall_fmap, Forall_true. intros c. simpl.
  destruct (is_az c) eqn:Haz; simpl; [by left|].
  destruct (isspace c) eqn:Hsp; by right.
Qed.

Lemma sub_spaces_from_chars in_run text :
  Forall (λ c, is_az c = true ∨ isspace c = true) text →
  Forall az_or_space (sub_spaces_from in_run text).
Proof.
  intros Hall. revert in_run.
  induction Hall as [|c rest Hc _ IH]; intros in_run; simpl; [constructor|].
  destruct (isspace c) eqn:Hsp.
  - destruct in_run; [apply IH|]. constructor; [by right | apply IH].
  - constructor; [|apply IH]. left. destruct Hc; congruence.
Qed.

Lemma lstrip_Forall (P : N → Prop) s : Forall P s → Forall P (lstrip s).
Proof.
  induction 1 as [|c rest Hc Hrest IH]; simpl; [constructor|].
  destruct (isspace c); [done | by constructor].
Qed.

Lemma rstrip_Forall (P : N → Prop) s : Forall P s → Forall P (rstrip s).
Proof.
  induction 1 as [|c rest Hc Hrest IH]; simpl; [constructor|].
  destruct (rstrip rest) as [|d rest'].
  - destruct (isspace c); repeat constructor; done.
  - by constructor.
Qed.

Lemma normalize_text_chars lower text :
  Forall az_or_space (normalize_text lower text).
Proof.
  unfold normalize_text, strip, sub_spaces.
  apply rstrip_Forall, lstrip_Forall, sub_spaces_from_chars, sub_non_alpha_chars.
Qed.

(** ** [split] and [join] *)

Lemma push_word_Forall (P : str → Prop) w ws :
  (w ≠ [] → P w) → Forall P ws → Forall P (push_word w ws).
Proof. destruct w; simpl; [done|]. intros Hw Hws. constructor; [by apply Hw | done]. Qed.

Lemma split_go_words s :
  Forall (λ c, isspace c = false) (split_go s).1 ∧ Forall is_word (split_go s).2.
Proof.
  induction s as [|c rest [IHw IHws]]; simpl; [by split|].
  destruct (split_go rest) as [w ws]; simpl in *.
  destruct (isspace c) eqn:Hsp; simpl.
  - split; [constructor|]. apply push_word_Forall; [|done]. by split.
  - split; [by constructor | done].
Qed.

Lemma split_words s : Forall is_word (split s).
Proof.
  unfold split. pose proof (split_go_words s) as [Hw Hws].
  destruct (split_go s) as [w ws]; simpl in *.
  apply push_word_Forall; [|done]. by split.
Qed.

(** Every character of a word of [split s] is a character of [s]. *)
Lemma split_go_chars (P : N → Prop) s :
  Forall P s → Forall P (split_go s).1 ∧ Forall (Forall P) (split_go s).2.
Proof.
  induction 1 as [|c rest Hc Hrest [IHw IHws]]; simpl; [by split|].
  destruct (split_go rest) as [w ws]; simpl in *.
  destruct (isspace c); simpl.
  - split; [constructor|]. by apply push_word_Forall.
  - split; [by constructor | done].
Qed.

Lemma split_chars (P : N → Prop) s : Forall P s → Forall (Forall P) (split s).
Proof.
  intros Hs. unfold split. pose proof (split_go_chars P s Hs) as [Hw Hws].
  destruct (split_go s) as [w ws]; simpl in *.
  by apply push_word_Forall.
Qed.

Lemma tokenize_split text : tokenize text = split text.
Proof. by destruct text. Qed.

Lemma split_go_app w s :
  Forall (λ c, isspace c = false) w →
  split_go (w ++ s) = (w ++ (split_go s).1, (split_go s).2).
Proof.
  induction 1 as [|c w Hc Hw IH]; simpl; [by destruct (split_go s)|].
  rewrite IH, Hc. done.
Qed.

Lemma split_go_join w ws :
  is_word w → Forall is_word ws → split_go (join (w :: ws)) = (w, ws).
Proof.
  intros Hw Hws. revert w Hw.
  induction Hws as [|w2 ws Hw2 Hws IH]; intros w [Hne Hw].
  - simpl. rewrite <- (app_nil_r w) at 1. rewrite split_go_app by done.
    simpl. by rewrite app_nil_r.
  - change (join (w :: w2 :: ws)) with (w ++ SPACE :: join (w2 :: ws)).
    rewrite split_go_app by done.
    cbn [split_go]. rewrite (IH w2 Hw2), isspace_SPACE. simpl.
    rewrite app_nil_r. destruct Hw2 as [Hne2 _]. by destruct w2.
Qed.

Lemma split_join ws : Forall is_word ws → split (join ws) = ws.
Proof.
  destruct 1 as [|w ws Hw Hws]; [done|].
  unfold split. rewrite split_go_join by done.
  destruct Hw as [Hne _]. by destruct w.
Qed.

Lemma join_cons_char c w ws : join ((c :: w) :: ws) = c :: join (w :: ws).
Proof. by destruct ws. Qed.

Lemma join_nil_inv ws : Forall is_word ws → join ws = [] → ws = [].
Proof.
  destruct 1 as [|w ws [Hne _] _]; [done|].
  destruct w as [|c w]; [done|]. by rewrite join_cons_char.
Qed.

Lemma split_go_space c rest : isspace c = true → (split_go (c :: rest)).1 = [].
Proof. intros Hsp. simpl. destruct (split_go rest). by rewrite Hsp. Qed.

Lemma split_cons_space c rest : isspace c = true → split (c :: rest) = split rest.
Proof. intros Hsp. unfold split. simpl. destruct (split_go rest). by rewrite Hsp. Qed.

Lemma split_cons_word c rest :
  isspace c = false →
  split (c :: rest) = (c :: (split_go rest).1) :: (split_go rest).2.
Proof. intros Hsp. unfold split. simpl. destruct (split_go rest). by rewrite Hsp. Qed.

(** Collapsing the runs of white space and stripping leaves the words,
    one space apart. *)
Lemma lstrip_sub_spaces_from in_run s :
  lstrip (sub_spaces_from in_run s) = sub_spaces_from true s.
Proof.
  revert in_run. induction s as [|c rest IH]; intros in_run; simpl; [done|].
  destruct (isspace c) eqn:Hsp.
  - destruct in_run; [apply IH|]. cbn [lstrip]. rewrite isspace_SPACE. apply IH.
  - simpl. by rewrite Hsp.
Qed.

Lemma rstrip_cons_word c s : isspace c = false → rstrip (c :: s) = c :: rstrip s.
Proof. intros Hsp. simpl. destruct (rstrip s); by rewrite ?Hsp. Qed.

Lemma rstrip_sub_spaces_from s :
  rstrip (sub_spaces_from true s) = join (split s)
  ∧ rstrip (sub_spaces_from false s)
    = match s with
      | [] => []
      | c :: _ =>
          if isspace c
          then match split s with [] => [] | _ => SPACE :: join (split s) end
          else join (split s)
      end.
Proof.
  induction s as [|c rest [IHt IHf]]; [done|].
  destruct (isspace c) eqn:Hsp.
  - cbn [sub_spaces_from]. rewrite Hsp, split_cons_space by done.
    split; [done|].
    cbn [rstrip]. rewrite IHt, isspace_SPACE.
    destruct (split rest) as [|w ws] eqn:Hsplit; [done|].
    destruct (join (w :: ws)) eqn:Hjoin; [|done].
    apply join_nil_inv in Hjoin; [done|]. rewrite <- Hsplit. apply split_words.
  - cbn [sub_spaces_from]. rewrite Hsp, !rstrip_cons_word, IHf by done.
    rewrite split_cons_word by done.
    assert (c :: match rest with
                 | [] => []
                 | c0 :: _ =>
                     if isspace c0
                     then match split rest with
                          | [] => []
                          | _ :: _ => SPACE :: join (split rest)
                          end
                     else join (split rest)
                 end
            = join ((c :: (split_go rest).1) :: (split_go rest).2)) as ->; [|done].
    destruct rest as [|d rest']; [done|].
    destruct (isspace d) eqn:Hd.
    + rewrite (split_go_space d rest' Hd).
      unfold split. destruct (split_go (d :: rest')) as [w ws] eqn:Hgo.
      assert (w = []) as -> by (by rewrite <- (split_go_space d rest' Hd), Hgo).
      simpl. by destruct ws.
    + rewrite join_cons_char. f_equal.
      unfold split. destruct (split_go (d :: rest')) as [w ws] eqn:Hgo.
      simpl in Hgo. destruct (split_go rest'). rewrite Hd in Hgo.
      by inversion Hgo.
Qed.

Lemma strip_sub_spaces s : strip (sub_spaces s) = join (split s).
Proof.
  unfold strip, sub_spaces. rewrite lstrip_sub_spaces_from.
  apply rstrip_sub_spaces_from.
Qed.

Lemma normalize_text_join lower text :
  normalize_text lower text = join (split (sub_non_alpha (lower text))).
Proof. unfold normalize_text. apply strip_sub_spaces. Qed.

Lemma sub_non_alpha_fixed s : Forall az_or_space s → sub_non_alpha s = s.
Proof.
  unfold sub_non_alpha. induction 1 as [|c s Hc Hs IH]; [done|].
  rewrite fmap_cons, IH. f_equal.
  destruct Hc as [-> | ->]; done.
Qed.

Lemma sub_non_alpha_app s1 s2 :
  sub_non_alpha (s1 ++ s2) = sub_non_alpha s1 ++ sub_non_alpha s2.
Proof. apply fmap_app. Qed.

Lemma sub_non_alpha_other c :
  is_az c = false → isspace (if is_az c || isspace c then c else SPACE) = true.
Proof. intros ->. simpl. by destruct (isspace c) eqn:Hsp. Qed.

Lemma split_blank s : Forall (λ c, isspace c = true) s → split s = [].
Proof.
  induction 1 as [|c s Hc Hs IH]; [done|]. by rewrite split_cons_space.
Qed.

Lemma split_go_word w : is_word w → split_go w = (w, []).
Proof. intros Hw. apply (split_go_join w [] Hw). constructor. Qed.

Lemma split_separator u c v :
  is_word u → is_word v → isspace c = true → split (u ++ c :: v) = [u; v].
Proof.
  intros [Hne Hu] Hv Hc. unfold split.
  rewrite split_go_app by done. cbn [split_go].
  rewrite (split_go_word v Hv), Hc. simpl.
  rewrite app_nil_r. destruct Hv as [Hnev _].
  destruct v; [done|]. by destruct u.
Qed.

Lemma az_word w : w ≠ [] → Forall (λ c, is_az c = true) w → is_word w.
Proof.
  intros Hne Haz. split; [done|].
  eapply Forall_impl; [exact Haz|]. apply is_az_not_space.
Qed.

Lemma join_az_or_space ws :
  Forall (Forall (λ c, is_az c = true)) ws → Forall az_or_space (join ws).
Proof.
  induction 1 as [|w ws Hw Hws IH]; [constructor|].
  assert (Forall az_or_space w) as Hw'.
  { eapply Forall_impl; [exact Hw|]. by left. }
  destruct ws as [|w2 ws]; [done|].
  change (join (w :: w2 :: ws)) with (w ++ SPACE :: join (w2 :: ws)).
  apply Forall_app. split; [done|]. constructor; [by right | done].
Qed.

Lemma ascii_lower_letter c : is_ascii_letter c = true → is_az (ascii_lower_char c) = true.
Proof.
  unfold is_ascii_letter. intros H.
  unfold ascii_lower_char.
  destruct ((65 <=? c)%N && (c <=? 90)%N) eqn:Hup; char_arith.
Qed.

Lemma ascii_lower_other c :
  is_ascii_letter c = false → is_az (ascii_lower_char c) = false.
Proof.
  unfold is_ascii_letter. intros H.
  unfold ascii_lower_char.
  destruct ((65 <=? c)%N && (c <=? 90)%N) eqn:Hup; char_arith.
Qed.

Lemma ascii_lower_az_or_space s : Forall az_or_space s → ascii_lower s = s.
Proof.
  unfold ascii_lower. induction 1 as [|c s Hc Hs IH]; [done|].
  rewrite fmap_cons, IH. f_equal.
  destruct Hc as [Haz | ->]; [|done].
  unfold ascii_lower_char.
  destruct ((65 <=? c)%N && (c <=? 90)%N) eqn:Hup; [|done]. char_arith.
Qed.

Lemma az_or_space_ascii s :
  Forall az_or_space s → Forall (λ c, is_ascii c = true) s.
Proof.
  intros Hs. eapply Forall_impl; [exact Hs|].
  intros c [Haz | ->]; [|done]. char_arith.
Qed.

(** The tokens of a text are words of letters [a-z]. *)
Lemma tokens_az lower text :
  Forall (λ tok, tok ≠ [] ∧ Forall (λ c, is_az c = true) tok)
    (tokenize (normalize_text lower text)).
Proof.
  rewrite tokenize_split.
  pose proof (split_words (normalize_text lower text)) as Hwords.
  pose proof (split_chars _ _ (normalize_text_chars lower text)) as Hchars.
  rewrite Forall_forall in Hwords, Hchars. apply Forall_forall.
  intros tok Htok. destruct (Hwords tok Htok) as [Hne Hnosp].
  split; [done|]. specialize (Hchars tok Htok).
  rewrite Forall_forall in Hnosp, Hchars. apply Forall_forall.
  intros c Hc. apply az_or_space_not_space; auto.
Qed.

Lemma tokens_words lower text :
  Forall is_word (tokenize (normalize_text lower text)).
Proof.
  eapply Forall_impl; [apply tokens_az|].
  intros tok [Hne Haz]. by apply az_word.
Qed.

Lemma normalize_text_no_letter lower text :
  Forall (λ c, is_az c = false) (lower text) → normalize_text lower text = [].
Proof.
  intros Hno. rewrite normalize_text_join, split_blank; [done|].
  unfold sub_non_alpha. apply Forall_fmap.
  eapply Forall_impl; [exact Hno|]. intros c Hc. simpl.
  by apply sub_non_alpha_other.
Qed.

(** C2: whatever the text, the tokens of [tokenize (normalize_text text)] are
    never empty and hold only letters [a-z], so no white space; [tokenize]
    alone, on any string, yields no empty token and no token with white
    space; a text whose lowercased form has no letter [a-z] (punctuation,
    digits, separators only) has no token at all, and an empty normalized
    string gives the empty sequence. *)
Theorem tokenize_never_empty_nor_non_letter (lower : str → str) (text : str) :
  Forall (λ tok, tok ≠ [] ∧ Forall (λ c, is_az c = true ∧ isspace c = false) tok)
    (tokenize (normalize_text lower text))
  ∧ (∀ raw : str,
       Forall (λ tok, tok ≠ [] ∧ Forall (λ c, isspace c = false) tok) (tokenize raw))
  ∧ (Forall (λ c, is_az c = false) (lower text) →
     tokenize (normalize_text lower text) = [])
  ∧ (normalize_text lower text = [] → tokenize (normalize_text lower text) = []).
Proof.
  split; [|split; [|split]].
  - eapply Forall_impl; [apply tokens_az|].
    intros tok [Hne Haz]. split; [done|].
    eapply Forall_impl; [exact Haz|].
    intros c Hc. split; [done | by apply is_az_not_space].
  - intros raw. rewrite tokenize_split. apply split_words.
  - intros Hno. by rewrite normalize_text_no_letter.
  - by intros ->.
Qed.

Lemma tokenize_only_separators :
  Forall (λ c, is_az c = false) (ascii_lower (lit "!@#$% 123 --"))
  ∧ tokenize (normalize_text ascii_lower (lit "!@#$% 123 --")) = [].
Proof.
  assert (Forall (λ c, is_az c = false) (ascii_lower (lit "!@#$% 123 --"))) as Hno.
  { vm_compute. repeat constructor. }
  split; [exact Hno|].
  exact (proj1 (proj2 (proj2
           (tokenize_never_empty_nor_non_letter ascii_lower (lit "!@#$% 123 --")))) Hno).
Defined.

(** ** Lowercasing and separators *)

Lemma ascii_lower_on_ascii : lower_on_ascii ascii_lower.
Proof. by intros s _. Qed.

Lemma ascii_lower_app s1 s2 : ascii_lower (s1 ++ s2) = ascii_lower s1 ++ ascii_lower s2.
Proof. apply fmap_app. Qed.

Lemma ascii_lower_letters w :
  Forall (λ c, is_ascii_letter c = true) w →
  Forall (λ c, is_az c = true) (ascii_lower w).
Proof.
  intros Hw. unfold ascii_lower. apply Forall_fmap.
  eapply Forall_impl; [exact Hw|]. intros c. apply ascii_lower_letter.
Qed.

Lemma is_ascii_letter_ascii c : is_ascii_letter c = true → is_ascii c = true.
Proof. intros H. unfold is_ascii_letter in H. char_arith. Qed.

Lemma normalize_text_separator lower u c v :
  lower_on_ascii lower →
  u ≠ [] → v ≠ [] →
  Forall (λ c, is_ascii_letter c = true) u →
  Forall (λ c, is_ascii_letter c = true) v →
  is_ascii c = true → is_ascii_letter c = false →
  normalize_text lower (u ++ c :: v) = ascii_lower u ++ SPACE :: ascii_lower v.
Proof.
  intros Hlower Hu Hv Hlu Hlv Hc Hnc.
  assert (is_word (ascii_lower u)) as Hwu.
  { apply az_word; [by destruct u | by apply ascii_lower_letters]. }
  assert (is_word (ascii_lower v)) as Hwv.
  { apply az_word; [by destruct v | by apply ascii_lower_letters]. }
  rewrite normalize_text_join, Hlower.
  - rewrite ascii_lower_app, sub_non_alpha_app.
    change (ascii_lower (c :: v)) with (ascii_lower_char c :: ascii_lower v).
    change (sub_non_alpha (?a :: ?s))
      with ((if is_az a || isspace a then a else SPACE) :: sub_non_alpha s).
    rewrite !sub_non_alpha_fixed.
    + rewrite split_separator; [done..|].
      apply sub_non_alpha_other. by apply ascii_lower_other.
    + eapply Forall_impl; [apply ascii_lower_letters, Hlv|]. by left.
    + eapply Forall_impl; [apply ascii_lower_letters, Hlu|]. by left.
  - apply Forall_app. split; [|constructor; [done|]].
    + eapply Forall_impl; [exact Hlu|]. apply is_ascii_letter_ascii.
    + eapply Forall_impl; [exact Hlv|]. apply is_ascii_letter_ascii.
Qed.

(** C7: with [str.lower] doing on ASCII text what it does,
    [normalize_text("Hello, World!") == "hello world"],
    [normalize_text("Test 123 text") == "test text"], and "quick-brown" gives
    the two tokens "quick" and "brown", not the token "quickbrown"; in
    general an ASCII character that is not a letter, standing between two
    runs of ASCII letters, leaves one space between the two lowercased runs,
    which are two tokens. *)
Theorem normalize_text_lowercases_and_separates
  (lower : str → str) (Hlower : lower_on_ascii lower) :
  normalize_text lower (lit "Hello, World!") = lit "hello world"
  ∧ normalize_text lower (lit "Test 123 text") = lit "test text"
  ∧ tokenize (normalize_text lower (lit "quick-brown")) = [lit "quick"; lit "brown"]
  ∧ tokenize (normalize_text lower (lit "quick-brown")) ≠ [lit "quickbrown"]
  ∧ (∀ u c v,
       u ≠ [] → v ≠ [] →
       Forall (λ c, is_ascii_letter c = true) u →
       Forall (λ c, is_ascii_letter c = true) v →
       is_ascii c = true → is_ascii_letter c = false →
       normalize_text lower (u ++ c :: v) = ascii_lower u ++ SPACE :: ascii_lower v
       ∧ tokenize (normalize_text lower (u ++ c :: v)) = [ascii_lower u; ascii_lower v]).
Proof.
  assert (∀ s, forallb is_ascii s = true → normalize_text lower s = normalize_text ascii_lower s)
    as Hrun.
  { intros s Hs. unfold normalize_text. rewrite Hlower; [done|].
    apply Forall_forall. intros c Hc.
    rewrite forallb_forall in Hs. apply Hs. by apply list_elem_of_In. }
  split; [|split; [|split; [|split]]].
  - by rewrite Hrun.
  - by rewrite Hrun.
  - by rewrite Hrun.
  - by rewrite Hrun.
  - intros u c v Hu Hv Hlu Hlv Hc Hnc.
    rewrite normalize_text_separator by done. split; [done|].
    rewrite tokenize_split.
    apply split_separator; [| |done].
    + apply az_word; [by destruct u | by apply ascii_lower_letters].
    + apply az_word; [by destruct v | by apply ascii_lower_letters].
Qed.

Lemma normalize_text_scenarios :
  lower_on_ascii ascii_lower
  ∧ normalize_text ascii_lower (lit "Hello, World!") = lit "hello world"
  ∧ normalize_text ascii_lower (lit "Test 123 text") = lit "test text"
  ∧ tokenize (normalize_text ascii_lower (lit "quick-brown")) = [lit "quick"; lit "brown"].
Proof.
  pose proof (normalize_text_lowercases_and_separates ascii_lower ascii_lower_on_ascii)
    as (H1 & H2 & H3 & _).
  split; [exact ascii_lower_on_ascii|]. split; [exact H1|]. split; [exact H2 | exact H3].
Defined.

(** ** Tokenizing again *)

Lemma normalize_text_rejoin lower text :
  normalize_text lower text = join (tokenize (normalize_text lower text)).
Proof.
  rewrite tokenize_split. rewrite normalize_text_join at 1.
  rewrite normalize_text_join, split_join; [done|]. apply split_words.
Qed.

Lemma tokenize_join ws : Forall is_word ws → tokenize (join ws) = ws.
Proof. intros Hws. rewrite tokenize_split. by apply split_join. Qed.

Lemma normalize_text_fixed lower ws :
  lower_on_ascii lower →
  Forall (λ tok, tok ≠ [] ∧ Forall (λ c, is_az c = true) tok) ws →
  normalize_text lower (join ws) = join ws.
Proof.
  intros Hlower Hws.
  assert (Forall az_or_space (join ws)) as Hchars.
  { apply join_az_or_space. eapply Forall_impl; [exact Hws|]. by intros tok [_ ?]. }
  assert (Forall is_word ws) as Hwords.
  { eapply Forall_impl; [exact Hws|]. intros tok [Hne Haz]. by apply az_word. }
  rewrite normalize_text_join, Hlower by by apply az_or_space_ascii.
  by rewrite ascii_lower_az_or_space, sub_non_alpha_fixed, split_join.
Qed.

(** C8: join the tokens of a text with single spaces; tokenizing that string
    again, with or without normalizing it first, gives the same tokens. *)
Theorem retokenize_rejoined_tokens
  (lower : str → str) (Hlower : lower_on_ascii lower) (text : str) :
  let tokens := tokenize (normalize_text lower text) in
  tokenize (join tokens) = tokens
  ∧ tokenize (normalize_text lower (join tokens)) = tokens.
Proof.
  intros tokens. subst tokens. split.
  - apply tokenize_join, tokens_words.
  - rewrite normalize_text_fixed by (done || apply tokens_az).
    apply tokenize_join, tokens_words.
Qed.

Lemma retokenize_mixed_content :
  lower_on_ascii ascii_lower
  ∧ tokenize (normalize_text ascii_lower
      (join (tokenize (normalize_text ascii_lower
                         (lit "The quick-brown fox, jumped! Over 3 lazy dogs.")))))
    = tokenize (normalize_text ascii_lower
                  (lit "The quick-brown fox, jumped! Over 3 lazy dogs.")).
Proof.
  split; [exact ascii_lower_on_ascii|].
  exact (proj2 (retokenize_rejoined_tokens ascii_lower ascii_lower_on_ascii
                  (lit "The quick-brown fox, jumped! Over 3 lazy dogs."))).
Defined.

(** ** Counting *)

Lemma incr_values_sum elem c :
  sum (Counter.values (Counter.incr elem c)) = sum (Counter.values c) + 1.
Proof.
  induction c as [|[k v] rest IH]; simpl; [done|].
  destruct (decide (k = elem)); simpl.
  - unfold sum, Counter.values. lia.
  - fold (Counter.values (Counter.incr elem rest)) (Counter.values rest).
    change (foldr Z.add 0 ?l) with (sum l). lia.
Qed.

Lemma incr_counts elem c :
  Forall (λ kv, 1 ≤ kv.2) c → Forall (λ kv, 1 ≤ kv.2) (Counter.incr elem c).
Proof.
  induction 1 as [|[k v] rest Hkv Hrest IH]; simpl.
  - by repeat constructor.
  - destruct (decide (k = elem)); constructor; simpl in *; done || lia.
Qed.

Lemma keys_cons k v (c : Counter.t) :
  Counter.keys ((k, v) :: c) = k :: Counter.keys c.
Proof. done. Qed.

Lemma incr_keys elem c :
  Counter.keys (Counter.incr elem c)
  = if decide (elem ∈ Counter.keys c) then Counter.keys c
    else Counter.keys c ++ [elem].
Proof.
  induction c as [|[k v] rest IH]; [done|].
  cbn [Counter.incr].
  destruct (decide (k = elem)) as [-> | Hne]; rewrite !keys_cons.
  - rewrite decide_True; [done | left].
  - rewrite IH. destruct (decide (elem ∈ Counter.keys rest)) as [Hin | Hnin].
    + rewrite decide_True; [done | by right].
    + rewrite decide_False; [done|]. intros Hin.
      apply elem_of_cons in Hin as [-> | Hin]; done.
Qed.

Lemma incr_NoDup elem c :
  NoDup (Counter.keys c) → NoDup (Counter.keys (Counter.incr elem c)).
Proof.
  intros Hnd. rewrite incr_keys. case_decide; [done|].
  apply NoDup_app. split; [done|]. split; [|apply NoDup_singleton].
  intros k Hk Hk'. apply list_elem_of_singleton in Hk' as ->. done.
Qed.

Lemma count_elements_sum tokens c :
  sum (Counter.values (foldl (λ c elem, Counter.incr elem c) c tokens))
  = sum (Counter.values c) + Z.of_nat (length tokens).
Proof.
  revert c. induction tokens as [|tok tokens IH]; intros c; simpl; [lia|].
  rewrite IH, incr_values_sum. lia.
Qed.

Lemma count_elements_table tokens c :
  FrequencyTable c →
  FrequencyTable (foldl (λ c elem, Counter.incr elem c) c tokens).
Proof.
  revert c. induction tokens as [|tok tokens IH]; intros c [Hnd Hpos]; simpl.
  - by split.
  - apply IH. split; [by apply incr_NoDup | by apply incr_counts].
Qed.

Lemma Counter_of_list_sum tokens :
  sum (Counter.values (Counter.of_list tokens)) = Z.of_nat (length tokens).
Proof. unfold Counter.of_list. by rewrite count_elements_sum. Qed.

Lemma Counter_of_list_table tokens : FrequencyTable (Counter.of_list tokens).
Proof.
  apply count_elements_table. split; [apply NoDup_nil_2 | constructor].
Qed.

Lemma compute_frequencies_table lower text :
  FrequencyTable (compute_frequencies lower text).
Proof. apply Counter_of_list_table. Qed.

(** C1: for every text, the counts of [compute_frequencies(text)] add up to
    the number of tokens of [tokenize(normalize_text(text))], and every count
    in the table is at least 1. *)
Theorem compute_frequencies_sum_and_counts (lower : str → str) (text : str) :
  sum (Counter.values (compute_frequencies lower text))
  = Z.of_nat (length (tokenize (normalize_text lower text)))
  ∧ Forall (λ kv, 1 ≤ kv.2) (compute_frequencies lower text).
Proof.
  split.
  - apply Counter_of_list_sum.
  - apply compute_frequencies_table.
Qed.

(** ** The Zipf constant *)

Lemma foldr_max_init a b l : foldr Z.max (Z.max a b) l = Z.max b (foldr Z.max a l).
Proof. induction l as [|x l IH]; simpl; [lia|]. rewrite IH. lia. Qed.

Lemma max_item_count best l :
  (Counter.max_item best l).2 = foldr Z.max best.2 (Counter.values l).
Proof.
  revert best. induction l as [|x l IH]; intros best; [done|].
  cbn [Counter.max_item]. unfold Counter.values. rewrite fmap_cons.
  fold (Counter.values l). cbn [foldr].
  destruct (best.2 <? x.2) eqn:Hlt; rewrite IH.
  - apply Z.ltb_lt in Hlt.
    replace x.2 with (Z.max best.2 x.2) at 1 by lia.
    apply foldr_max_init.
  - apply Z.ltb_ge in Hlt.
    replace best.2 with (Z.max best.2 x.2) at 1 by lia.
    apply foldr_max_init.
Qed.

(** [most_common(1)[0]] is there as soon as the table is not empty. *)
Lemma most_common_1_head (c : Counter.t) :
  c ≠ [] → ∃ item, Counter.most_common_1 c !! 0%nat = Some item.
Proof. destruct c as [|x l]; [done|]. intros _. by eexists. Qed.

Lemma compute_zipf_constant_max_count (c : Counter.t) :
  c ≠ [] → compute_zipf_constant c = inject_Z (max_count c).
Proof.
  destruct c as [|[k v] l]; [done|]. intros _.
  unfold compute_zipf_constant, max_count. simpl.
  pose proof (max_item_count (k, v) l) as Hmax.
  destruct (Counter.max_item (k, v) l) as [k' n]. simpl in Hmax. by rewrite Hmax.
Qed.

Lemma foldr_max_upper v vs :
  v ≤ foldr Z.max v vs ∧ Forall (λ x, x ≤ foldr Z.max v vs) vs.
Proof.
  induction vs as [|x vs [IHv IHvs]]; simpl; [by split|].
  split; [lia|]. constructor; [lia|].
  eapply Forall_impl; [exact IHvs|]. simpl. lia.
Qed.

Lemma foldr_max_elem v vs : foldr Z.max v vs ∈ v :: vs.
Proof.
  induction vs as [|x vs IH]; simpl; [left|].
  destruct (Z.max_spec x (foldr Z.max v vs)) as [[_ ->] | [_ ->]].
  - apply elem_of_cons in IH as [-> | IH]; [left | right; by right].
  - right; left.
Qed.

Lemma max_count_upper (c : Counter.t) :
  Forall (λ v, v ≤ max_count c) (Counter.values c).
Proof.
  unfold max_count. destruct (Counter.values c) as [|v vs]; [constructor|].
  destruct (foldr_max_upper v vs). by constructor.
Qed.

Lemma max_count_elem (c : Counter.t) : c ≠ [] → max_count c ∈ Counter.values c.
Proof.
  unfold max_count. destruct c as [|[k v] l]; [done|]. intros _.
  unfold Counter.values. rewrite fmap_cons. apply foldr_max_elem.
Qed.

Lemma max_count_values (c c' : Counter.t) :
  Counter.values c ≡ₚ Counter.values c' → max_count c = max_count c'.
Proof.
  intros Hperm.
  destruct c as [|x l].
  { apply Permutation_nil_l in Hperm. by destruct c'. }
  destruct c' as [|x' l'].
  { by apply Permutation_nil_r in Hperm. }
  pose proof (max_count_upper (x :: l)) as Hup.
  pose proof (max_count_upper (x' :: l')) as Hup'.
  pose proof (max_count_elem (x :: l) ltac:(done)) as Hin.
  pose proof (max_count_elem (x' :: l') ltac:(done)) as Hin'.
  rewrite Forall_forall in Hup, Hup'.
  rewrite Hperm in Hin. rewrite <- Hperm in Hin'.
  apply Hup' in Hin. apply Hup in Hin'. lia.
Qed.

Lemma compute_zipf_constant_values (c c' : Counter.t) :
  Counter.values c ≡ₚ Counter.values c' →
  compute_zipf_constant c = compute_zipf_constant c'.
Proof.
  intros Hperm. destruct c as [|x l].
  { apply Permutation_nil_l in Hperm. by destruct c'. }
  destruct c' as [|x' l'].
  { by apply Permutation_nil_r in Hperm. }
  rewrite !compute_zipf_constant_max_count by done.
  f_equal. by apply max_count_values.
Qed.

(** *** The constant in binary64 *)

Lemma float_of_int_exact (n : Z) :
  - 2 ^ 53 ≤ n ≤ 2 ^ 53 → float_of_int n = inr (inject_Z n).
Proof.
  intros Hn. unfold float_of_int.
  destruct (Z.abs n <? 2 ^ 53) eqn:Hlt; [done|].
  apply Z.ltb_ge in Hlt.
  assert (n = 2 ^ 53 ∨ n = - 2 ^ 53) as [-> | ->] by lia; reflexivity.
Qed.

Lemma compute_zipf_constant_binary64_max_count (c : Counter.t) :
  c ≠ [] → compute_zipf_constant_binary64 c = float_of_int (max_count c).
Proof.
  destruct c as [|[k v] l]; [done|]. intros _.
  unfold compute_zipf_constant_binary64, max_count.
  cbn [Counter.most_common_1 lookup list_lookup].
  pose proof (max_item_count (k, v) l) as Hmax.
  destruct (Counter.max_item (k, v) l) as [k' n]. cbn [snd] in Hmax.
  unfold Counter.values. rewrite fmap_cons. fold (Counter.values l).
  cbn [snd]. by rewrite Hmax.
Qed.

Lemma compute_zipf_constant_binary64_values (c c' : Counter.t) :
  Counter.values c ≡ₚ Counter.values c' →
  compute_zipf_constant_binary64 c = compute_zipf_constant_binary64 c'.
Proof.
  intros Hperm. destruct c as [|x l].
  { apply Permutation_nil_l in Hperm. by destruct c'. }
  destruct c' as [|x' l'].
  { by apply Permutation_nil_r in Hperm. }
  rewrite !compute_zipf_constant_binary64_max_count by done.
  f_equal. by apply max_count_values.
Qed.

(** Where binary64 holds the largest count exactly, the constant of the
    handlers is the constant that the code computes. *)
Lemma compute_zipf_constant_binary64_exact (c : Counter.t) :
  - 2 ^ 53 ≤ max_count c ≤ 2 ^ 53 →
  compute_zipf_constant_binary64 c = inr (compute_zipf_constant c).
Proof.
  intros Hb. destruct c as [|x l]; [done|].
  rewrite compute_zipf_constant_binary64_max_count by done.
  rewrite compute_zipf_constant_max_count by done.
  by apply float_of_int_exact.
Qed.

(** C3, amended: [compute_zipf_constant] is 0.0 on the empty table; on any
    other table it is [float(k)], where [k] is the largest count of the table,
    a count that some entry has and that no entry exceeds; that float is
    exactly [k] when [k] is between [-2^53] and [2^53]; on
    [{"the": 100, "of": 50, "and": 25}] it is 100.0; and two tables with the
    same counts, whatever the words that carry them and whatever their order,
    have the same constant. *)
Theorem compute_zipf_constant_binary64_largest_count (table : Counter.t) :
  compute_zipf_constant_binary64 [] = inr 0%Q
  ∧ (table ≠ [] →
     compute_zipf_constant_binary64 table = float_of_int (max_count table)
     ∧ max_count table ∈ Counter.values table
     ∧ Forall (λ v, v ≤ max_count table) (Counter.values table))
  ∧ (table ≠ [] → - 2 ^ 53 ≤ max_count table ≤ 2 ^ 53 →
     compute_zipf_constant_binary64 table = inr (inject_Z (max_count table)))
  ∧ compute_zipf_constant_binary64
      [(lit "the", 100); (lit "of", 50); (lit "and", 25)] = inr 100%Q
  ∧ (∀ table' : Counter.t,
       Counter.values table ≡ₚ Counter.values table' →
       compute_zipf_constant_binary64 table'
       = compute_zipf_constant_binary64 table).
Proof.
  split; [done|]. split; [|split; [|split; [done|]]].
  - intros Hne. split; [by apply compute_zipf_constant_binary64_max_count|].
    split; [by apply max_count_elem | apply max_count_upper].
  - intros Hne Hb.
    rewrite compute_zipf_constant_binary64_max_count by done.
    by apply float_of_int_exact.
  - intros table' Hperm. symmetry.
    by apply compute_zipf_constant_binary64_values.
Qed.

Lemma compute_zipf_constant_binary64_tied :
  compute_zipf_constant_binary64 [(lit "b", 2); (lit "c", 1); (lit "a", 2)]
  = compute_zipf_constant_binary64 [(lit "a", 2); (lit "b", 2); (lit "c", 1)]
  ∧ compute_zipf_constant_binary64 [(lit "a", 2); (lit "b", 2); (lit "c", 1)]
    = inr (inject_Z 2).
Proof.
  pose proof (compute_zipf_constant_binary64_largest_count
                [(lit "a", 2); (lit "b", 2); (lit "c", 1)])
    as (_ & _ & Hexact & _ & Hties).
  split.
  - apply Hties. simpl. apply Permutation_cons_append.
  - apply Hexact; [done|]. vm_compute. split; discriminate.
Defined.

(** C3 as stated fails above [2^53]: the largest count of
    [{"a": 2^53 + 1, "b": 1}] is [2^53 + 1], and the constant is the float
    [2^53], another number. *)
Lemma compute_zipf_constant_binary64_rounds :
  max_count [(lit "a", 2 ^ 53 + 1); (lit "b", 1)] = 2 ^ 53 + 1
  ∧ compute_zipf_constant_binary64 [(lit "a", 2 ^ 53 + 1); (lit "b", 1)]
    = inr (inject_Z (2 ^ 53))
  ∧ ¬ (inject_Z (2 ^ 53) == inject_Z (2 ^ 53 + 1))%Q
  ∧ ¬ (∀ table : Counter.t,
         table ≠ [] →
         ∃ x, compute_zipf_constant_binary64 table = inr x
              ∧ (x == inject_Z (max_count table))%Q).
Proof.
  split; [reflexivity|]. split; [reflexivity|]. split.
  - rewrite inject_Z_injective. discriminate.
  - intros Hall.
    destruct (Hall [(lit "a", 2 ^ 53 + 1); (lit "b", 1)] ltac:(done))
      as (x & Hx & Heq).
    change (compute_zipf_constant_binary64 [(lit "a", 2 ^ 53 + 1); (lit "b", 1)])
      with (@inr exn Q (inject_Z (2 ^ 53))) in Hx.
    injection Hx as <-.
    change (max_count [(lit "a", 2 ^ 53 + 1); (lit "b", 1)])
      with (2 ^ 53 + 1) in Heq.
    rewrite inject_Z_injective in Heq. discriminate Heq.
Qed.

(** ** Ranking *)

Lemma insert_desc_perm x l : Counter.insert_desc x l ≡ₚ x :: l.
Proof.
  induction l as [|y l IH]; [done|]. cbn [Counter.insert_desc].
  destruct (x.2 <? y.2); [|done].
  rewrite IH. apply Permutation_swap.
Qed.

Lemma most_common_perm (c : Counter.t) : Counter.most_common c ≡ₚ c.
Proof.
  induction c as [|x c IH]; [done|].
  cbn [Counter.most_common foldr]. fold (Counter.most_common c).
  by rewrite insert_desc_perm, IH.
Qed.

Lemma insert_desc_sorted x l :
  StronglySorted by_count_desc l →
  StronglySorted by_count_desc (Counter.insert_desc x l).
Proof.
  induction 1 as [|y l Hl IH Hy]; cbn [Counter.insert_desc].
  - by repeat constructor.
  - destruct (x.2 <? y.2) eqn:Hlt.
    + apply Z.ltb_lt in Hlt. constructor; [done|].
      rewrite insert_desc_perm. constructor; [|done].
      unfold by_count_desc. lia.
    + apply Z.ltb_ge in Hlt. constructor; [by constructor|].
      constructor; [done|].
      eapply Forall_impl; [exact Hy|]. unfold by_count_desc. intros z. lia.
Qed.

Lemma most_common_sorted (c : Counter.t) :
  StronglySorted by_count_desc (Counter.most_common c).
Proof.
  induction c as [|x c IH]; [constructor|].
  cbn [Counter.most_common foldr]. by apply insert_desc_sorted.
Qed.

Lemma sorted_lookup (l : Counter.t) (i j : nat) a b :
  StronglySorted by_count_desc l →
  (i ≤ j)%nat → l !! i = Some a → l !! j = Some b → b.2 ≤ a.2.
Proof.
  intros Hl. revert i j.
  induction Hl as [|x l Hl IH Hx]; intros i j Hij Hi Hj; [done|].
  destruct i as [|i], j as [|j]; simpl in *; simplify_eq.
  - lia.
  - rewrite Forall_forall in Hx. apply (Hx b). eapply list_elem_of_lookup_2, Hj.
  - lia.
  - apply (IH i j); [lia | done..].
Qed.

Lemma most_common_desc (c : Counter.t) (i j : nat) a b :
  (i ≤ j)%nat →
  Counter.most_common c !! i = Some a → Counter.most_common c !! j = Some b →
  b.2 ≤ a.2.
Proof. apply sorted_lookup, most_common_sorted. Qed.

(** ** The loop of [get_zipf] *)

Lemma enumerate_lookup {A} (start : Z) (l : list A) (i : nat) :
  enumerate start l !! i = (λ x, (start + Z.of_nat i, x)) <$> l !! i.
Proof.
  revert start i. induction l as [|x l IH]; intros start i; [done|].
  destruct i as [|i]; cbn [enumerate lookup list_lookup].
  - cbn. by rewrite Z.add_0_r.
  - rewrite IH. destruct (l !! i); [|done]. cbn.
    replace (start + 1 + Z.of_nat i) with (start + Z.of_nat (S i)) by lia. done.
Qed.

Lemma enumerate_length {A} (start : Z) (l : list A) :
  length (enumerate start l) = length l.
Proof. revert start. induction l as [|x l IH]; intros start; simpl; [done|]. by rewrite IH. Qed.

Lemma enumerate_snd {A} (start : Z) (l : list A) : (enumerate start l).*2 = l.
Proof. revert start. induction l as [|x l IH]; intros start; simpl; [done|]. by rewrite IH. Qed.

Lemma enumerate_fst {A} (start : Z) (l : list A) :
  (enumerate start l).*1 = seqZ start (Z.of_nat (length l)).
Proof.
  revert start. induction l as [|x l IH]; intros start; [done|].
  cbn [enumerate length]. rewrite fmap_cons, IH, (seqZ_cons start) by lia.
  simpl. do 2 f_equal; lia.
Qed.

Lemma zipf_data_lookup zc (ranked : Counter.t) (i : nat) :
  zipf_data zc ranked !! i
  = (λ item, zipf_point zc (1 + Z.of_nat i, item)) <$> ranked !! i.
Proof.
  unfold zipf_data. rewrite list_lookup_fmap, enumerate_lookup.
  by destruct (ranked !! i).
Qed.

Lemma zipf_data_items zc (ranked : Counter.t) :
  (λ p, (ZipfDataPoint.word p, ZipfDataPoint.frequency p)) <$> zipf_data zc ranked
  = ranked.
Proof.
  unfold zipf_data. rewrite <- list_fmap_compose.
  rewrite <- (enumerate_snd 1 ranked) at 2.
  apply list_fmap_ext. by intros _ [rank [word frequency]] _.
Qed.

Lemma zipf_data_ranks zc (ranked : Counter.t) :
  ZipfDataPoint.rank <$> zipf_data zc ranked = seqZ 1 (Z.of_nat (length ranked)).
Proof.
  unfold zipf_data. rewrite <- list_fmap_compose, <- enumerate_fst.
  apply list_fmap_ext. by intros _ [rank [word frequency]] _.
Qed.

Lemma zipf_data_words zc (ranked : Counter.t) :
  ZipfDataPoint.word <$> zipf_data zc ranked = Counter.keys ranked.
Proof.
  rewrite <- (zipf_data_items zc ranked) at 2.
  unfold Counter.keys. by rewrite <- list_fmap_compose.
Qed.

Lemma zipf_data_frequencies zc (ranked : Counter.t) :
  ZipfDataPoint.frequency <$> zipf_data zc ranked = Counter.values ranked.
Proof.
  rewrite <- (zipf_data_items zc ranked) at 2.
  unfold Counter.values. by rewrite <- list_fmap_compose.
Qed.

Lemma zipf_data_length zc (ranked : Counter.t) :
  length (zipf_data zc ranked) = length ranked.
Proof. unfold zipf_data. by rewrite length_fmap, enumerate_length. Qed.

(** ** What the handlers return for a cached document *)

Lemma get_zipf_found (cache : FrequencyCache.t) text_id cached :
  FrequencyCache.get cache text_id = Some cached →
  get_zipf cache text_id
  = ([call_compute_zipf_constant; call_sum_values; call_most_common],
     inr (ZipfResponse.mk text_id (CachedText.title cached)
            (sum (Counter.values (CachedText.frequencies cached)))
            (compute_zipf_constant (CachedText.frequencies cached))
            (zipf_series (CachedText.frequencies cached)))).
Proof. intros Hget. unfold get_zipf. by rewrite Hget. Qed.

Lemma get_frequency_found (cache : FrequencyCache.t) text_id cached :
  FrequencyCache.get cache text_id = Some cached →
  get_frequency cache text_id
  = ([call_most_common; call_sum_values; call_len],
     inr (FrequencyResponse.mk text_id (CachedText.title cached)
            (sum (Counter.values (CachedText.frequencies cached)))
            (Counter.len (CachedText.frequencies cached))
            ((λ '(word, count), WordFrequency.mk word count)
               <$> Counter.most_common (CachedText.frequencies cached)))).
Proof. intros Hget. unfold get_frequency. by rewrite Hget. Qed.

Lemma zipf_series_lookup (table : Counter.t) (i : nat) p :
  zipf_series table !! i = Some p →
  ∃ word frequency,
    Counter.most_common table !! i = Some (word, frequency)
    ∧ p = zipf_point (compute_zipf_constant table) (1 + Z.of_nat i, (word, frequency)).
Proof.
  unfold zipf_series. rewrite zipf_data_lookup.
  destruct (Counter.most_common table !! i) as [[word frequency]|]; [|done].
  intros [= <-]. by exists word, frequency.
Qed.

(** C5: for a table of N distinct words the series has N entries, of ranks
    1, 2, ..., N in this order, of frequencies that never increase along the
    series, and its (word, frequency) pairs are the items of the table, each
    once: no word is repeated and none is left out.  This series is the
    [data] of the response of [get_zipf] for a document cached with that
    table. *)
Theorem zipf_series_ranks (table : Counter.t) (Htable : FrequencyTable table) :
  let series := zipf_series table in
  length series = length (Counter.keys table)
  ∧ ZipfDataPoint.rank <$> series = seqZ 1 (Z.of_nat (length (Counter.keys table)))
  ∧ (∀ (i : nat) p, series !! i = Some p → ZipfDataPoint.rank p = Z.of_nat i + 1)
  ∧ (∀ (i j : nat) p q,
       (i ≤ j)%nat → series !! i = Some p → series !! j = Some q →
       ZipfDataPoint.frequency q ≤ ZipfDataPoint.frequency p)
  ∧ (λ p, (ZipfDataPoint.word p, ZipfDataPoint.frequency p)) <$> series ≡ₚ table
  ∧ NoDup (ZipfDataPoint.word <$> series)
  ∧ (∀ w, w ∈ Counter.keys table ↔ w ∈ ZipfDataPoint.word <$> series)
  ∧ (∀ (cache : FrequencyCache.t) text_id cached,
       FrequencyCache.get cache text_id = Some cached →
       CachedText.frequencies cached = table →
       ∃ r, outcome (get_zipf cache text_id) = inr r ∧ ZipfResponse.data r = series).
Proof.
  intros series. subst series. destruct Htable as [Hnd _].
  assert (ZipfDataPoint.word <$> zipf_series table ≡ₚ Counter.keys table) as Hwords.
  { unfold zipf_series. rewrite zipf_data_words. unfold Counter.keys.
    by rewrite most_common_perm. }
  assert (length (Counter.most_common table) = length (Counter.keys table)) as Hlen.
  { unfold Counter.keys. by rewrite length_fmap, most_common_perm. }
  split; [|split; [|split; [|split; [|split; [|split; [|split]]]]]].
  - unfold zipf_series. by rewrite zipf_data_length.
  - unfold zipf_series. by rewrite zipf_data_ranks, Hlen.
  - intros i p Hp. apply zipf_series_lookup in Hp as (word & frequency & _ & ->).
    simpl. lia.
  - intros i j p q Hij Hp Hq.
    apply zipf_series_lookup in Hp as (wp & fp & Hp & ->).
    apply zipf_series_lookup in Hq as (wq & fq & Hq & ->).
    apply (most_common_desc table i j (wp, fp) (wq, fq)); done.
  - unfold zipf_series. rewrite zipf_data_items. apply most_common_perm.
  - by rewrite Hwords.
  - intros w. by rewrite Hwords.
  - intros cache text_id cached Hget <-.
    rewrite (get_zipf_found cache text_id cached Hget). by eexists.
Qed.

Lemma tied_table_is_table : FrequencyTable tied_table.
Proof.
  split.
  - apply (bool_decide_unpack _). by vm_compute.
  - repeat constructor; simpl; lia.
Qed.

Lemma zipf_series_ranks_tied :
  FrequencyTable tied_table
  ∧ ZipfDataPoint.rank <$> zipf_series tied_table = [1; 2; 3; 4]
  ∧ ZipfDataPoint.word <$> zipf_series tied_table
    = [lit "the"; lit "and"; lit "cat"; lit "dog"].
Proof.
  split; [exact tied_table_is_table|]. split.
  - exact (proj1 (proj2 (zipf_series_ranks tied_table tied_table_is_table))).
  - reflexivity.
Defined.

(** ** Expected frequencies *)

Lemma rank_guard_pos (rank : Z) : 1 ≤ rank → rank_guard rank = true.
Proof. intros H. unfold rank_guard. apply Z.gtb_lt. lia. Qed.



Lemma zipf_series_expected (table : Counter.t) (i : nat) p :
  zipf_series table !! i = Some p →
  ZipfDataPoint.rank p = 1 + Z.of_nat i
  ∧ ZipfDataPoint.expected_frequency p
    = (compute_zipf_constant table / inject_Z (1 + Z.of_nat i))%Q.
Proof.
  intros Hp. apply zipf_series_lookup in Hp as (word & frequency & _ & ->).
  unfold zipf_point. cbn. by rewrite rank_guard_pos by lia.
Qed.



(** ** Unknown and known documents *)

(** C6: for an identifier that is not in the cache, both handlers raise the
    404 "not found" exception and start none of the computations on a
    frequency table; they return no response, empty or not.  For an
    identifier that is in the cache they return a response, never the
    exception, and do start the computations. *)
Theorem unknown_text_not_found
  (cache : FrequencyCache.t) (text_id : str)
  (Hmiss : FrequencyCache.get cache text_id = None) :
  outcome (get_frequency cache text_id)
  = inl (mkHTTPException 404 (not_found_detail text_id))
  ∧ calls (get_frequency cache text_id) = []
  ∧ (∀ r, outcome (get_frequency cache text_id) ≠ inr r)
  ∧ outcome (get_zipf cache text_id)
    = inl (mkHTTPException 404 (not_found_detail text_id))
  ∧ calls (get_zipf cache text_id) = []
  ∧ (∀ r, outcome (get_zipf cache text_id) ≠ inr r)
  ∧ (∀ known cached,
       FrequencyCache.get cache known = Some cached →
       (∃ r, outcome (get_frequency cache known) = inr r)
       ∧ (∃ r, outcome (get_zipf cache known) = inr r)
       ∧ calls (get_frequency cache known) ≠ []
       ∧ calls (get_zipf cache known) ≠ []).
Proof.
  split; [|split; [|split; [|split; [|split; [|split]]]]].
  1-6: unfold get_frequency, get_zipf; by rewrite Hmiss.
  intros known cached Hget.
  rewrite (get_frequency_found cache known cached Hget).
  rewrite (get_zipf_found cache known cached Hget).
  split; [by eexists|]. split; [by eexists|]. done.
Qed.

Lemma unknown_text_nonexistent :
  FrequencyCache.get sample_cache (lit "nonexistent") = None
  ∧ outcome (get_zipf sample_cache (lit "nonexistent"))
    = inl (mkHTTPException 404 (lit "Text 'nonexistent' not found"))
  ∧ calls (get_zipf sample_cache (lit "nonexistent")) = [].
Proof.
  assert (FrequencyCache.get sample_cache (lit "nonexistent") = None) as Hmiss
    by by vm_compute.
  pose proof (unknown_text_not_found sample_cache (lit "nonexistent") Hmiss)
    as (_ & _ & _ & Hzipf & Hcalls & _).
  split; [exact Hmiss|]. split; [exact Hzipf | exact Hcalls].
Defined.

(** C9: for a cached document, every rank that the loop of [get_zipf] meets
    is at least 1, so the test [rank > 0] holds at every turn, the divisor is
    never zero and the fallback branch is never taken: every entry of the
    response has [expected_frequency = zipf_constant / rank]. *)
Theorem rank_guard_never_fails
  (cache : FrequencyCache.t) (text_id : str) (cached : CachedText.t)
  (Hget : FrequencyCache.get cache text_id = Some cached) :
  Forall (λ item, 1 ≤ item.1 ∧ rank_guard item.1 = true ∧ ¬ (inject_Z item.1 == 0)%Q)
    (enumerate 1 (Counter.most_common (CachedText.frequencies cached)))
  ∧ ∃ r, outcome (get_zipf cache text_id) = inr r
         ∧ Forall (λ p, 1 ≤ ZipfDataPoint.rank p
                        ∧ ZipfDataPoint.expected_frequency p
                          = (ZipfResponse.zipf_constant r
                             / inject_Z (ZipfDataPoint.rank p))%Q)
             (ZipfResponse.data r).
Proof.
  split.
  - apply Forall_lookup. intros i [rank item] Hi.
    rewrite enumerate_lookup in Hi.
    destruct (Counter.most_common (CachedText.frequencies cached) !! i); [|done].
    injection Hi as <- <-. cbn [fst].
    split; [lia|]. split; [apply rank_guard_pos; lia|].
    unfold Qeq, inject_Z. simpl. lia.
  - rewrite (get_zipf_found cache text_id cached Hget). eexists. split; [done|].
    cbn [ZipfResponse.data ZipfResponse.zipf_constant].
    apply Forall_lookup. intros i p Hp.
    apply zipf_series_expected in Hp as [-> ->]. split; [lia | done].
Qed.

Lemma rank_guard_sample :
  FrequencyCache.get sample_cache (lit "sample")
  = Some (CachedText.mk (lit "Sample Text") sample_text
            (compute_frequencies ascii_lower sample_text))
  ∧ Forall (λ item, 1 ≤ item.1 ∧ rank_guard item.1 = true ∧ ¬ (inject_Z item.1 == 0)%Q)
      (enumerate 1 (Counter.most_common (compute_frequencies ascii_lower sample_text))).
Proof.
  assert (FrequencyCache.get sample_cache (lit "sample")
          = Some (CachedText.mk (lit "Sample Text") sample_text
                    (compute_frequencies ascii_lower sample_text))) as Hget
    by by vm_compute.
  split; [exact Hget|].
  exact (proj1 (rank_guard_never_fails sample_cache (lit "sample") _ Hget)).
Defined.

(** C10: for a cached document the words of the frequency response, in
    order, are the words of the Zipf response, in order of rank, and so are
    the counts: both responses list [most_common()] of the same table. *)
Theorem same_words_in_both_responses
  (cache : FrequencyCache.t) (text_id : str) (cached : CachedText.t)
  (Hget : FrequencyCache.get cache text_id = Some cached) :
  ∃ fr zr,
    outcome (get_frequency cache text_id) = inr fr
    ∧ outcome (get_zipf cache text_id) = inr zr
    ∧ WordFrequency.word <$> FrequencyResponse.frequencies fr
      = ZipfDataPoint.word <$> ZipfResponse.data zr
    ∧ WordFrequency.count <$> FrequencyResponse.frequencies fr
      = ZipfDataPoint.frequency <$> ZipfResponse.data zr
    ∧ (∀ (i : nat) p, ZipfResponse.data zr !! i = Some p →
                      ZipfDataPoint.rank p = Z.of_nat i + 1).
Proof.
  rewrite (get_frequency_found cache text_id cached Hget).
  rewrite (get_zipf_found cache text_id cached Hget).
  do 2 eexists. split; [done|]. split; [done|].
  cbn [FrequencyResponse.frequencies ZipfResponse.data].
  unfold zipf_series. rewrite zipf_data_words, zipf_data_frequencies.
  rewrite <- !list_fmap_compose.
  split; [|split].
  - apply list_fmap_ext. by intros _ [word count] _.
  - apply list_fmap_ext. by intros _ [word count] _.
  - intros i p Hp. rewrite zipf_data_lookup in Hp.
    destruct (Counter.most_common (CachedText.frequencies cached) !! i)
      as [[word frequency]|]; [|done].
    injection Hp as <-. simpl. lia.
Qed.

Lemma same_words_sample :
  ∃ fr zr,
    outcome (get_frequency sample_cache (lit "sample")) = inr fr
    ∧ outcome (get_zipf sample_cache (lit "sample")) = inr zr
    ∧ WordFrequency.word <$> FrequencyResponse.frequencies fr
      = ZipfDataPoint.word <$> ZipfResponse.data zr.
Proof.
  assert (FrequencyCache.get sample_cache (lit "sample")
          = Some (CachedText.mk (lit "Sample Text") sample_text
                    (compute_frequencies ascii_lower sample_text))) as Hget
    by by vm_compute.
  destruct (same_words_in_both_responses sample_cache (lit "sample") _ Hget)
    as (fr & zr & Hfr & Hzr & Hwords & _).
  exists fr, zr. split; [exact Hfr|]. split; [exact Hzr | exact Hwords].
Defined.

(** * Further properties *)

(** ** The shape of a normalized text *)

Lemma tokens_split lower text :
  tokenize (normalize_text lower text) = split (sub_non_alpha (lower text)).
Proof.
  rewrite tokenize_split, normalize_text_join, split_join; [done|].
  apply split_words.
Qed.

(** Normalizing a normalized text changes nothing. *)
Theorem normalize_text_idempotent
  (lower : str → str) (Hlower : lower_on_ascii lower) (text : str) :
  normalize_text lower (normalize_text lower text) = normalize_text lower text.
Proof.
  rewrite (normalize_text_rejoin lower text) at 1 2.
  apply normalize_text_fixed; [done | apply tokens_az].
Qed.

Lemma normalize_text_idempotent_mixed :
  lower_on_ascii ascii_lower
  ∧ normalize_text ascii_lower
      (normalize_text ascii_lower (lit "  The quick-brown fox, jumped! Over 3 lazy dogs. "))
    = lit "the quick brown fox jumped over lazy dogs".
Proof.
  split; [exact ascii_lower_on_ascii|].
  rewrite (normalize_text_idempotent ascii_lower ascii_lower_on_ascii). reflexivity.
Defined.

Lemma last_snoc_split (w : str) :
  w ≠ [] → ∃ w' a, w = w' ++ [a].
Proof.
  intros Hne. induction w as [|a w' _] using rev_ind; [done|]. by exists w', a.
Qed.

Lemma join_space_between ws pre post :
  Forall (λ tok, tok ≠ [] ∧ Forall (λ c, is_az c = true) tok) ws →
  join ws = pre ++ SPACE :: post →
  ∃ pre' a b post',
    pre = pre' ++ [a] ∧ post = b :: post' ∧ is_az a = true ∧ is_az b = true.
Proof.
  intros Hws. revert pre.
  induction Hws as [|w ws [Hne Haz] Hws IH]; intros pre Heq.
  { by destruct pre. }
  assert (SPACE ∉ w) as Hnosp.
  { intros Hin. rewrite Forall_forall in Haz. by apply Haz in Hin. }
  destruct ws as [|w2 ws].
  { simpl in Heq. exfalso. apply Hnosp. rewrite Heq. apply elem_of_app. right. left. }
  change (join (w :: w2 :: ws)) with (w ++ SPACE :: join (w2 :: ws)) in Heq.
  assert (∃ pre' a b post',
            w = pre' ++ [a] ∧ join (w2 :: ws) = b :: post'
            ∧ is_az a = true ∧ is_az b = true) as Hadjacent.
  { destruct (last_snoc_split w Hne) as (w' & a & ->).
    apply Forall_inv in Hws as [Hne2 Haz2].
    destruct w2 as [|b w2']; [done|].
    exists w', a, b. eexists. rewrite join_cons_char. split; [done|]. split; [done|].
    split.
    - apply Forall_app in Haz as [_ Ha]. by apply Forall_inv in Ha.
    - by apply Forall_inv in Haz2. }
  apply app_eq_inv in Heq as [(k & Hw & Hk) | (k & Hpre & Hk)].
  - destruct k as [|c k]; cbn [app] in Hk.
    + injection Hk as ->. rewrite app_nil_r in Hw. subst pre. exact Hadjacent.
    + injection Hk as <- _. exfalso. apply Hnosp. rewrite Hw.
      apply elem_of_app. right. left.
  - destruct k as [|c k]; cbn [app] in Hk.
    + injection Hk as <-. rewrite app_nil_r in Hpre. subst pre. exact Hadjacent.
    + injection Hk as <- Hk.
      destruct (IH k Hk) as (pre' & a & b & post' & -> & -> & Ha & Hb).
      exists (w ++ SPACE :: pre'), a, b, post'. subst pre. by rewrite <- app_assoc.
Qed.

(** A normalized text holds only letters [a-z] and spaces, and each of its
    spaces stands between two letters: no space leads, none trails, no two
    are adjacent. *)
Theorem normalize_text_single_spaces (lower : str → str) (text : str) :
  Forall (λ c, is_az c = true ∨ c = SPACE) (normalize_text lower text)
  ∧ (∀ pre post,
       normalize_text lower text = pre ++ SPACE :: post →
       ∃ pre' a b post',
         pre = pre' ++ [a] ∧ post = b :: post' ∧ is_az a = true ∧ is_az b = true).
Proof.
  split; [apply normalize_text_chars|].
  intros pre post Heq. rewrite normalize_text_rejoin in Heq.
  eapply join_space_between; [apply tokens_az | exact Heq].
Qed.

(** ** What the table of a text holds *)

Lemma getitem_incr elem (c : Counter.t) key :
  Counter_getitem (Counter.incr elem c) key
  = Counter_getitem c key + (if decide (elem = key) then 1 else 0).
Proof.
  induction c as [|[k v] rest IH]; cbn [Counter.incr Counter_getitem].
  - destruct (decide (elem = key)); lia.
  - destruct (decide (k = elem)) as [-> | Hne]; cbn [Counter_getitem].
    + destruct (decide (elem = key)); lia.
    + rewrite IH. destruct (decide (k = key)) as [-> | Hne']; [|done].
      rewrite decide_False by done. lia.
Qed.

Lemma getitem_count_elements tokens (c : Counter.t) key :
  Counter_getitem (foldl (λ c elem, Counter.incr elem c) c tokens) key
  = Counter_getitem c key + Z.of_nat (length (filter (λ tok, tok = key) tokens)).
Proof.
  revert c. induction tokens as [|tok tokens IH]; intros c; simpl; [lia|].
  rewrite IH, getitem_incr, filter_cons.
  destruct (decide (tok = key)); simpl; lia.
Qed.

Lemma getitem_missing (c : Counter.t) key :
  key ∉ Counter.keys c → Counter_getitem c key = 0.
Proof.
  induction c as [|[k v] rest IH]; [done|]. rewrite keys_cons. intros Hnin.
  cbn [Counter_getitem]. rewrite decide_False; [apply IH|]; set_solver.
Qed.

Lemma getitem_elem (c : Counter.t) key :
  key ∈ Counter.keys c → (key, Counter_getitem c key) ∈ c.
Proof.
  induction c as [|[k v] rest IH]; [by intros ?%elem_of_nil|].
  rewrite keys_cons. intros Hin. cbn [Counter_getitem].
  destruct (decide (k = key)) as [-> | Hne]; [left|].
  right. apply IH. apply elem_of_cons in Hin as [-> | Hin]; done.
Qed.

Lemma count_elements_keys tokens (c : Counter.t) key :
  key ∈ Counter.keys (foldl (λ c elem, Counter.incr elem c) c tokens)
  ↔ key ∈ Counter.keys c ∨ key ∈ tokens.
Proof.
  revert c. induction tokens as [|tok tokens IH]; intros c; simpl.
  - split; [by left | intros [?|?%elem_of_nil]; done].
  - rewrite IH, incr_keys. case_decide; set_solver.
Qed.

(** The table of a text counts occurrences: [c[w]] is the number of times
    [w] occurs among the tokens of the text, the keys are the words that
    occur, and each key is listed with that count. *)
Theorem compute_frequencies_counts_occurrences
  (lower : str → str) (text : str) (w : str) :
  let tokens := tokenize (normalize_text lower text) in
  let table := compute_frequencies lower text in
  Counter_getitem table w = Z.of_nat (length (filter (λ tok, tok = w) tokens))
  ∧ (w ∈ Counter.keys table ↔ w ∈ tokens)
  ∧ (w ∈ tokens → (w, Z.of_nat (length (filter (λ tok, tok = w) tokens))) ∈ table)
  ∧ NoDup (Counter.keys table).
Proof.
  intros tokens table. subst tokens table.
  unfold compute_frequencies, Counter.of_list. cbn zeta.
  assert (∀ key, key ∈ Counter.keys
                   (foldl (λ c elem, Counter.incr elem c) []
                      (tokenize (normalize_text lower text)))
                 ↔ key ∈ tokenize (normalize_text lower text)) as Hkeys.
  { intros key. rewrite count_elements_keys. set_solver. }
  assert (∀ key, Counter_getitem
                   (foldl (λ c elem, Counter.incr elem c) []
                      (tokenize (normalize_text lower text))) key
                 = Z.of_nat (length (filter (λ tok, tok = key)
                                       (tokenize (normalize_text lower text)))))
    as Hcount.
  { intros key. rewrite getitem_count_elements. simpl. lia. }
  split; [apply Hcount|]. split; [apply Hkeys|]. split.
  - intros Hin. rewrite <- Hcount. apply getitem_elem. by apply Hkeys.
  - apply (Counter_of_list_table (tokenize (normalize_text lower text))).
Qed.

Lemma Counter_of_list_keys tokens :
  Counter.keys (Counter.of_list tokens) = reverse (remove_dups (reverse tokens)).
Proof.
  induction tokens as [|tok tokens IH] using rev_ind; [done|].
  unfold Counter.of_list in *. rewrite foldl_snoc, incr_keys, IH.
  rewrite reverse_snoc. cbn [remove_dups].
  destruct (decide_rel elem_of tok (reverse tokens)) as [Hin | Hnin].
  - rewrite decide_True; [done|].
    by rewrite elem_of_reverse, elem_of_remove_dups.
  - rewrite decide_False, reverse_cons; [done|].
    by rewrite elem_of_reverse, elem_of_remove_dups.
Qed.

Lemma compute_frequencies_keys_reverse lower text :
  Counter.keys (compute_frequencies lower text)
  = reverse (remove_dups (reverse (tokenize (normalize_text lower text)))).
Proof. apply Counter_of_list_keys. Qed.

(** The keys of the table are the distinct tokens, in the order in which
    each of them first occurs in the text: what is left of the tokens when
    every occurrence but the first is dropped. *)
Theorem compute_frequencies_first_occurrence_order (lower : str → str) (text : str) :
  let tokens := tokenize (normalize_text lower text) in
  Counter.keys (compute_frequencies lower text)
  = reverse (remove_dups (reverse tokens))
  ∧ Counter.len (compute_frequencies lower text)
    = Z.of_nat (length (remove_dups tokens)).
Proof.
  intros tokens. subst tokens.
  split; [apply compute_frequencies_keys_reverse|].
  unfold Counter.len.
  rewrite <- (length_fmap fst (compute_frequencies lower text)).
  fold (Counter.keys (compute_frequencies lower text)).
  rewrite compute_frequencies_keys_reverse, length_reverse.
  f_equal. apply Permutation_length.
  apply NoDup_Permutation; [apply NoDup_remove_dups..|].
  intros w. by rewrite !elem_of_remove_dups, elem_of_reverse.
Qed.

(** ** Texts put together *)

Lemma push_word_app w ws1 ws2 : push_word w (ws1 ++ ws2) = push_word w ws1 ++ ws2.
Proof. by destruct w. Qed.

Lemma split_go_app_space s1 c s2 :
  isspace c = true →
  split_go (s1 ++ c :: s2) = ((split_go s1).1, (split_go s1).2 ++ split s2).
Proof.
  intros Hc. induction s1 as [|x s1 IH].
  - cbn [app split_go]. unfold split. destruct (split_go s2). by rewrite Hc.
  - cbn [app split_go]. rewrite IH. destruct (split_go s1) as [w ws]. cbn [fst snd].
    destruct (isspace x); [|done]. by rewrite push_word_app.
Qed.

Lemma split_app_space s1 c s2 :
  isspace c = true → split (s1 ++ c :: s2) = split s1 ++ split s2.
Proof.
  intros Hc. unfold split at 1 2. rewrite split_go_app_space by done.
  destruct (split_go s1) as [w ws]. cbn [fst snd]. apply push_word_app.
Qed.

(** The tokens of two ASCII texts put together with an ASCII character that
    is not a letter between them are the tokens of the first followed by the
    tokens of the second, so the word counts add up. *)
Theorem tokens_of_separated_texts
  (lower : str → str) (Hlower : lower_on_ascii lower) (a b : str) (c : N)
  (Ha : Forall (λ x, is_ascii x = true) a)
  (Hb : Forall (λ x, is_ascii x = true) b)
  (Hc : is_ascii c = true) (Hsep : is_ascii_letter c = false) :
  tokenize (normalize_text lower (a ++ c :: b))
  = tokenize (normalize_text lower a) ++ tokenize (normalize_text lower b)
  ∧ sum (Counter.values (compute_frequencies lower (a ++ c :: b)))
    = sum (Counter.values (compute_frequencies lower a))
      + sum (Counter.values (compute_frequencies lower b)).
Proof.
  assert (tokenize (normalize_text lower (a ++ c :: b))
          = tokenize (normalize_text lower a) ++ tokenize (normalize_text lower b))
    as Htokens.
  { rewrite !tokens_split, !Hlower by (done || (apply Forall_app; split; [done|by constructor])).
    rewrite ascii_lower_app, sub_non_alpha_app.
    change (ascii_lower (c :: b)) with (ascii_lower_char c :: ascii_lower b).
    change (sub_non_alpha (?x :: ?s))
      with ((if is_az x || isspace x then x else SPACE) :: sub_non_alpha s).
    apply split_app_space, sub_non_alpha_other. by apply ascii_lower_other. }
  split; [exact Htokens|].
  unfold compute_frequencies. cbn zeta.
  rewrite !Counter_of_list_sum, Htokens, length_app. lia.
Qed.

Lemma tokens_of_two_lines :
  tokenize (normalize_text ascii_lower (lit "The cat." ++ 10%N :: lit "The dog!"))
  = tokenize (normalize_text ascii_lower (lit "The cat."))
    ++ tokenize (normalize_text ascii_lower (lit "The dog!")).
Proof.
  refine (proj1 (tokens_of_separated_texts ascii_lower ascii_lower_on_ascii
                   (lit "The cat.") (lit "The dog!") 10%N _ _ _ _)).
  - vm_compute. repeat constructor.
  - vm_compute. repeat constructor.
  - reflexivity.
  - reflexivity.
Defined.

(** ** Ties in [most_common] *)

Lemma insert_desc_filter (n : Z) x (l : Counter.t) :
  filter (λ kv, kv.2 = n) (Counter.insert_desc x l)
  = filter (λ kv, kv.2 = n) (x :: l).
Proof.
  induction l as [|y l IH]; [done|]. cbn [Counter.insert_desc].
  destruct (x.2 <? y.2) eqn:Hlt; [|done].
  apply Z.ltb_lt in Hlt.
  rewrite filter_cons, IH, !filter_cons.
  destruct (decide (y.2 = n)), (decide (x.2 = n)); done || lia.
Qed.

(** [most_common()] is stable: the items of any one count come in the order
    they have in the table, which for the table of a text is the order of
    their first occurrence. *)
Theorem most_common_keeps_order_of_ties (c : Counter.t) (n : Z) :
  filter (λ kv, kv.2 = n) (Counter.most_common c) = filter (λ kv, kv.2 = n) c.
Proof.
  induction c as [|x c IH]; [done|].
  cbn [Counter.most_common foldr]. fold (Counter.most_common c).
  by rewrite insert_desc_filter, !filter_cons, IH.
Qed.

Lemma max_item_cons best y (l : Counter.t) :
  Counter.max_item best (y :: l)
  = if best.2 <? (Counter.max_item y l).2 then Counter.max_item y l else best.
Proof.
  revert best y. induction l as [|z l IH]; intros best y; [done|].
  change (Counter.max_item best (y :: z :: l))
    with (if best.2 <? y.2 then Counter.max_item y (z :: l)
          else Counter.max_item best (z :: l)).
  rewrite (IH y z), (IH best z).
  generalize (Counter.max_item z l). intros m.
  destruct (best.2 <? y.2) eqn:Hby, (y.2 <? m.2) eqn:Hym,
           (best.2 <? m.2) eqn:Hbm; try done;
    rewrite ?Hby, ?Hbm; try done;
    rewrite ?Z.ltb_lt, ?Z.ltb_ge in *; lia.
Qed.

Lemma insert_desc_head x (l : Counter.t) :
  take 1 (Counter.insert_desc x l)
  = match l with
    | [] => [x]
    | y :: _ => if x.2 <? y.2 then [y] else [x]
    end.
Proof. destruct l as [|y l]; [done|]. cbn [Counter.insert_desc]. by destruct (x.2 <? y.2). Qed.

Lemma most_common_1_is_head (c : Counter.t) :
  Counter.most_common_1 c = take 1 (Counter.most_common c).
Proof.
  induction c as [|x c IH]; [done|].
  cbn [Counter.most_common foldr]. fold (Counter.most_common c).
  rewrite insert_desc_head. cbn [Counter.most_common_1].
  destruct c as [|y c]; [done|].
  rewrite max_item_cons. cbn [Counter.most_common_1] in IH.
  destruct (Counter.most_common (y :: c)) as [|top rest] eqn:Hmc.
  { discriminate IH. }
  cbn [take] in IH. injection IH as ->. by destruct (x.2 <? top.2).
Qed.

(** [most_common(1)] is the head of [most_common()], ties included: the item
    that [compute_zipf_constant] takes its count from is the item of rank 1,
    the constant is [float] of the count of that item, and it is that count
    exactly when the count is between [-2^53] and [2^53]. *)
Theorem most_common_1_is_head_of_most_common (c : Counter.t) :
  Counter.most_common_1 c = take 1 (Counter.most_common c)
  ∧ (∀ item, Counter.most_common c !! 0%nat = Some item →
             compute_zipf_constant_binary64 c = float_of_int item.2)
  ∧ (∀ item, Counter.most_common c !! 0%nat = Some item →
             - 2 ^ 53 ≤ item.2 ≤ 2 ^ 53 →
             compute_zipf_constant_binary64 c = inr (inject_Z item.2)).
Proof.
  assert (∀ item, Counter.most_common c !! 0%nat = Some item →
                  compute_zipf_constant_binary64 c = float_of_int item.2)
    as Hfloat.
  { intros item Hhead.
    pose proof (most_common_1_is_head c) as H1.
    destruct c as [|x l]; [done|].
    unfold compute_zipf_constant_binary64. rewrite H1.
    destruct (Counter.most_common (x :: l)) as [|top rest]; [done|].
    cbn in Hhead. injection Hhead as ->. cbn. by destruct item. }
  split; [apply most_common_1_is_head|]. split; [exact Hfloat|].
  intros item Hhead Hb. rewrite (Hfloat item Hhead).
  by apply float_of_int_exact.
Qed.

Lemma most_common_1_tied_head :
  compute_zipf_constant_binary64 [(lit "c", 1); (lit "a", 2); (lit "b", 2)]
  = inr (inject_Z 2).
Proof.
  apply (proj2 (proj2 (most_common_1_is_head_of_most_common
                         [(lit "c", 1); (lit "a", 2); (lit "b", 2)]))
           (lit "a", 2)).
  - reflexivity.
  - vm_compute. split; discriminate.
Defined.

(** ** The cache *)

Lemma ocache_get_set_eq (cache : OrderedFrequencyCache.t) k v :
  OrderedFrequencyCache.get (OrderedFrequencyCache.set cache k v) k = Some v.
Proof.
  induction cache as [|[k' v'] rest IH]; cbn.
  - by rewrite decide_True.
  - destruct (decide (k' = k)) as [-> | Hne]; cbn.
    + by rewrite decide_True.
    + by rewrite decide_False.
Qed.

Lemma ocache_get_set_ne (cache : OrderedFrequencyCache.t) k k' v :
  k ≠ k' →
  OrderedFrequencyCache.get (OrderedFrequencyCache.set cache k v) k'
  = OrderedFrequencyCache.get cache k'.
Proof.
  intros Hne. induction cache as [|[k0 v0] rest IH]; cbn.
  - by rewrite decide_False.
  - destruct (decide (k0 = k)) as [-> | Hne0]; cbn.
    + by rewrite !decide_False.
    + by rewrite IH.
Qed.

Lemma ocache_set_ids (cache : OrderedFrequencyCache.t) k v :
  OrderedFrequencyCache.list_ids (OrderedFrequencyCache.set cache k v)
  = if decide (k ∈ OrderedFrequencyCache.list_ids cache)
    then OrderedFrequencyCache.list_ids cache
    else OrderedFrequencyCache.list_ids cache ++ [k].
Proof.
  unfold OrderedFrequencyCache.list_ids.
  induction cache as [|[k0 v0] rest IH]; [done|].
  cbn [OrderedFrequencyCache.set].
  destruct (decide (k0 = k)) as [-> | Hne]; rewrite !fmap_cons; cbn [fst].
  - rewrite decide_True; [done | left].
  - rewrite IH. destruct (decide (k ∈ rest.*1)) as [Hin | Hnin].
    + rewrite decide_True; [done | by right].
    + rewrite decide_False; [done|]. intros Hin.
      apply elem_of_cons in Hin as [-> | Hin]; done.
Qed.

Lemma ocache_get_is_Some (cache : OrderedFrequencyCache.t) k :
  is_Some (OrderedFrequencyCache.get cache k)
  ↔ k ∈ OrderedFrequencyCache.list_ids cache.
Proof.
  unfold OrderedFrequencyCache.list_ids.
  induction cache as [|[k0 v0] rest IH]; cbn.
  - split; [by intros [? ?] | by intros ?%elem_of_nil].
  - destruct (decide (k0 = k)) as [-> | Hne].
    + split; [intros _; left | by eexists].
    + rewrite IH. split; [by right|].
      intros Hin. apply elem_of_cons in Hin as [-> | Hin]; done.
Qed.

Lemma ocache_has_get (cache : OrderedFrequencyCache.t) k :
  OrderedFrequencyCache.has cache k = true
  ↔ is_Some (OrderedFrequencyCache.get cache k).
Proof.
  unfold OrderedFrequencyCache.has. rewrite ocache_get_is_Some.
  unfold OrderedFrequencyCache.list_ids.
  split; [apply bool_decide_eq_true_1 | apply bool_decide_eq_true_2].
Qed.

Lemma ocache_view_lookup (cache : OrderedFrequencyCache.t) k :
  OrderedFrequencyCache.view cache !! k = OrderedFrequencyCache.get cache k.
Proof.
  unfold OrderedFrequencyCache.view.
  induction cache as [|[k0 v0] rest IH]; [done|].
  cbn [list_to_map foldr OrderedFrequencyCache.get]. cbn [fst snd].
  destruct (decide (k0 = k)) as [-> | Hne].
  - apply lookup_insert_eq.
  - by rewrite lookup_insert_ne.
Qed.

Lemma ocache_view_get (cache : OrderedFrequencyCache.t) k :
  FrequencyCache.get (OrderedFrequencyCache.view cache) k
  = OrderedFrequencyCache.get cache k.
Proof. apply ocache_view_lookup. Qed.

Lemma ocache_view_set (cache : OrderedFrequencyCache.t) k v :
  OrderedFrequencyCache.view (OrderedFrequencyCache.set cache k v)
  = FrequencyCache.set (OrderedFrequencyCache.view cache) k v.
Proof.
  apply map_eq. intros k'.
  rewrite ocache_view_lookup. unfold FrequencyCache.set.
  destruct (decide (k = k')) as [-> | Hne].
  - by rewrite ocache_get_set_eq, lookup_insert_eq.
  - rewrite ocache_get_set_ne, lookup_insert_ne by done.
    symmetry. apply ocache_view_lookup.
Qed.

Lemma cache_set_ids_NoDup (cache : OrderedFrequencyCache.t) k v :
  NoDup (OrderedFrequencyCache.list_ids cache) →
  NoDup (OrderedFrequencyCache.list_ids (OrderedFrequencyCache.set cache k v)).
Proof.
  intros Hnd. rewrite ocache_set_ids. case_decide; [done|].
  apply NoDup_app. split; [done|]. split; [|apply NoDup_singleton].
  intros x Hx Hx'. apply list_elem_of_singleton in Hx' as ->. done.
Qed.

(** What is set is what is got: after [set(k, v)], [get(k)] is [v] and every
    other key is as before; [has] is true exactly of the keys that [get]
    finds; [set] keeps the order of the ids, a new id going last; [clear]
    leaves nothing; and looking up the ordered dictionary or its lookup table
    is the same. *)
Theorem cache_set_then_get (cache : OrderedFrequencyCache.t) (k : str) (v : CachedText.t) :
  OrderedFrequencyCache.get (OrderedFrequencyCache.set cache k v) k = Some v
  ∧ (∀ k', k ≠ k' →
       OrderedFrequencyCache.get (OrderedFrequencyCache.set cache k v) k'
       = OrderedFrequencyCache.get cache k')
  ∧ (∀ k', OrderedFrequencyCache.has cache k' = true
           ↔ OrderedFrequencyCache.get cache k' ≠ None)
  ∧ OrderedFrequencyCache.list_ids (OrderedFrequencyCache.set cache k v)
    = (if OrderedFrequencyCache.has cache k
       then OrderedFrequencyCache.list_ids cache
       else OrderedFrequencyCache.list_ids cache ++ [k])
  ∧ (NoDup (OrderedFrequencyCache.list_ids cache) →
     NoDup (OrderedFrequencyCache.list_ids (OrderedFrequencyCache.set cache k v)))
  ∧ (∀ k', OrderedFrequencyCache.get (OrderedFrequencyCache.clear cache) k' = None)
  ∧ (∀ k', FrequencyCache.get (OrderedFrequencyCache.view cache) k'
           = OrderedFrequencyCache.get cache k')
  ∧ OrderedFrequencyCache.view (OrderedFrequencyCache.set cache k v)
    = FrequencyCache.set (OrderedFrequencyCache.view cache) k v.
Proof.
  split; [apply ocache_get_set_eq|].
  split; [intros k'; apply ocache_get_set_ne|].
  split.
  { intros k'. rewrite ocache_has_get, <- not_eq_None_Some. done. }
  assert (OrderedFrequencyCache.list_ids (OrderedFrequencyCache.set cache k v)
          = (if OrderedFrequencyCache.has cache k
             then OrderedFrequencyCache.list_ids cache
             else OrderedFrequencyCache.list_ids cache ++ [k])) as Hids.
  { rewrite ocache_set_ids. unfold OrderedFrequencyCache.has, bool_decide.
    unfold OrderedFrequencyCache.list_ids.
    by destruct (decide (k ∈ cache.*1)), (decide_rel elem_of k (cache.*1)). }
  split; [exact Hids|]. split.
  { apply cache_set_ids_NoDup. }
  split; [done|].
  split; [intros k'; apply ocache_view_get | apply ocache_view_set].
Qed.

Lemma cache_set_sample :
  NoDup (OrderedFrequencyCache.list_ids
           (OrderedFrequencyCache.set [(lit "a", CachedText.mk (lit "A") [] [])]
              (lit "b") (CachedText.mk (lit "B") [] []))).
Proof.
  refine (proj1 (proj2 (proj2 (proj2 (proj2
            (cache_set_then_get [(lit "a", CachedText.mk (lit "A") [] [])]
               (lit "b") (CachedText.mk (lit "B") [] [])))))) _).
  apply (bool_decide_unpack _). by vm_compute.
Defined.

(** ** Loading the texts *)

Section Loading.

Variable lower : str → str.
Variable title : str → str.

Lemma load_text_keeps (cache : OrderedFrequencyCache.t) txt_file k v :
  OrderedFrequencyCache.get cache k = Some v →
  OrderedFrequencyCache.get (load_text lower title cache txt_file) k = Some v.
Proof.
  intros Hget. destruct txt_file as [text_id content]. unfold load_text.
  destruct (OrderedFrequencyCache.has cache text_id) eqn:Hhas; [done|].
  rewrite ocache_get_set_ne; [done|]. intros ->.
  assert (OrderedFrequencyCache.has cache k = true) as Hk.
  { apply ocache_has_get. by eexists. }
  congruence.
Qed.

Lemma load_texts_keep (cache : OrderedFrequencyCache.t) txt_files k v :
  OrderedFrequencyCache.get cache k = Some v →
  OrderedFrequencyCache.get (foldl (load_text lower title) cache txt_files) k = Some v.
Proof.
  revert cache. induction txt_files as [|f fs IH]; intros cache Hget; [done|].
  apply IH. by apply load_text_keeps.
Qed.

Lemma load_text_new (cache : OrderedFrequencyCache.t) text_id content :
  OrderedFrequencyCache.get cache text_id = None →
  OrderedFrequencyCache.get (load_text lower title cache (text_id, content)) text_id
  = Some (CachedText.mk (title (replace_underscores text_id)) content
            (compute_frequencies lower content)).
Proof.
  intros Hnone. unfold load_text.
  destruct (OrderedFrequencyCache.has cache text_id) eqn:Hhas.
  - apply ocache_has_get in Hhas as [v Hv]. congruence.
  - apply ocache_get_set_eq.
Qed.

Lemma load_text_other (cache : OrderedFrequencyCache.t) txt_file k :
  txt_file.1 ≠ k →
  OrderedFrequencyCache.get (load_text lower title cache txt_file) k
  = OrderedFrequencyCache.get cache k.
Proof.
  destruct txt_file as [text_id content]. cbn [fst]. intros Hne. unfold load_text.
  destruct (OrderedFrequencyCache.has cache text_id); [done|].
  by apply ocache_get_set_ne.
Qed.

Lemma load_text_covers (cache : OrderedFrequencyCache.t) txt_file :
  is_Some (OrderedFrequencyCache.get (load_text lower title cache txt_file) txt_file.1).
Proof.
  destruct txt_file as [text_id content]. cbn [fst]. unfold load_text.
  destruct (OrderedFrequencyCache.has cache text_id) eqn:Hhas.
  - by apply ocache_has_get.
  - rewrite ocache_get_set_eq. by eexists.
Qed.

Lemma load_texts_cover (cache : OrderedFrequencyCache.t) txt_files txt_file :
  txt_file ∈ txt_files →
  is_Some (OrderedFrequencyCache.get
             (foldl (load_text lower title) cache txt_files) txt_file.1).
Proof.
  revert cache. induction txt_files as [|f fs IH]; intros cache Hin.
  { by apply elem_of_nil in Hin. }
  apply elem_of_cons in Hin as [-> | Hin]; [|by apply IH].
  cbn [foldl]. destruct (load_text_covers cache f) as [v Hv].
  exists v. by apply load_texts_keep.
Qed.

Lemma load_texts_nothing_new (cache : OrderedFrequencyCache.t) txt_files :
  Forall (λ f, is_Some (OrderedFrequencyCache.get cache f.1)) txt_files →
  foldl (load_text lower title) cache txt_files = cache.
Proof.
  induction 1 as [|[text_id content] fs Hf Hfs IH]; [done|].
  cbn [foldl load_text]. cbn [fst] in Hf.
  apply ocache_has_get in Hf. by rewrite Hf.
Qed.

Lemma load_text_ids_NoDup (cache : OrderedFrequencyCache.t) txt_file :
  NoDup (OrderedFrequencyCache.list_ids cache) →
  NoDup (OrderedFrequencyCache.list_ids (load_text lower title cache txt_file)).
Proof.
  intros Hnd. destruct txt_file as [text_id content]. unfold load_text.
  destruct (OrderedFrequencyCache.has cache text_id); [done|].
  by apply cache_set_ids_NoDup.
Qed.

Lemma set_loaded_from_content (cache : OrderedFrequencyCache.t) k v :
  loaded_from_content lower cache →
  CachedText.frequencies v = compute_frequencies lower (CachedText.content v) →
  loaded_from_content lower (OrderedFrequencyCache.set cache k v).
Proof.
  unfold loaded_from_content. intros Hall Hv.
  induction Hall as [|[k0 v0] rest H0 Hrest IH]; cbn [OrderedFrequencyCache.set].
  - by repeat constructor.
  - destruct (decide (k0 = k)); by constructor.
Qed.

Lemma load_text_loaded_from_content (cache : OrderedFrequencyCache.t) txt_file :
  loaded_from_content lower cache →
  loaded_from_content lower (load_text lower title cache txt_file).
Proof.
  intros Hall. destruct txt_file as [text_id content]. unfold load_text.
  destruct (OrderedFrequencyCache.has cache text_id); [done|].
  by apply set_loaded_from_content.
Qed.

Lemma load_texts_invariants (cache : OrderedFrequencyCache.t) data_dir :
  (NoDup (OrderedFrequencyCache.list_ids cache) →
   NoDup (OrderedFrequencyCache.list_ids
            (load_texts_from_disk lower title data_dir cache)))
  ∧ (loaded_from_content lower cache →
     loaded_from_content lower (load_texts_from_disk lower title data_dir cache)).
Proof.
  destruct data_dir as [txt_files|]; [|done]. cbn [load_texts_from_disk].
  revert cache. induction txt_files as [|f fs IH]; intros cache; [done|].
  cbn [foldl]. destruct (IH (load_text lower title cache f)) as [IH1 IH2].
  split; intros H.
  - by apply IH1, load_text_ids_NoDup.
  - by apply IH2, load_text_loaded_from_content.
Qed.

End Loading.

(** [load_texts_from_disk] never replaces an entry of the cache: whatever
    the directory holds, a text that was cached stays as it was. *)
Theorem load_texts_from_disk_keeps_cached_texts
  (lower title : str → str) (data_dir : option (list (str * str)))
  (cache : OrderedFrequencyCache.t) (text_id : str) (cached : CachedText.t)
  (Hget : OrderedFrequencyCache.get cache text_id = Some cached) :
  OrderedFrequencyCache.get (load_texts_from_disk lower title data_dir cache) text_id
  = Some cached.
Proof.
  destruct data_dir as [txt_files|]; [|done].
  by apply load_texts_keep.
Qed.

Lemma load_texts_from_disk_keeps_stale_entry :
  OrderedFrequencyCache.get
    (load_texts_from_disk ascii_lower (λ s, s)
       (Some [(lit "alice", lit "Alice was"); (lit "moby_dick", lit "Call me Ishmael")])
       stale_cache)
    (lit "moby_dick")
  = Some (CachedText.mk (lit "Moby Dick") (lit "old text") [(lit "old", 7)]).
Proof.
  apply (load_texts_from_disk_keeps_cached_texts ascii_lower (λ s, s)
           (Some [(lit "alice", lit "Alice was"); (lit "moby_dick", lit "Call me Ishmael")])
           stale_cache (lit "moby_dick")).
  reflexivity.
Defined.

Lemma load_texts_first_file
  (lower title : str → str) (cache : OrderedFrequencyCache.t)
  (before after : list (str * str)) text_id content :
  OrderedFrequencyCache.get cache text_id = None →
  text_id ∉ before.*1 →
  OrderedFrequencyCache.get
    (foldl (load_text lower title) cache (before ++ (text_id, content) :: after)) text_id
  = Some (CachedText.mk (title (replace_underscores text_id)) content
            (compute_frequencies lower content)).
Proof.
  revert cache. induction before as [|f before IH]; intros cache Hnone Hnin.
  - cbn [app foldl]. apply load_texts_keep. by apply load_text_new.
  - cbn [app foldl]. rewrite fmap_cons in Hnin. apply IH.
    + rewrite load_text_other; [done|]. intros Heq. apply Hnin. rewrite Heq. left.
    + intros Hin. apply Hnin. by right.
Qed.

(** A file whose stem is not cached yet is cached with its content, the
    frequencies of that content and the title made from the stem; the
    frequency endpoint then reports as total the number of tokens of the
    content and as unique words the number of distinct tokens. *)
Theorem load_texts_from_disk_caches_new_file
  (lower title : str → str) (cache : OrderedFrequencyCache.t)
  (before after : list (str * str)) (text_id content : str)
  (Hnew : OrderedFrequencyCache.get cache text_id = None)
  (Hfirst : text_id ∉ before.*1) :
  let loaded :=
    load_texts_from_disk lower title
      (Some (before ++ (text_id, content) :: after)) cache in
  let tokens := tokenize (normalize_text lower content) in
  OrderedFrequencyCache.get loaded text_id
  = Some (CachedText.mk (title (replace_underscores text_id)) content
            (compute_frequencies lower content))
  ∧ ∃ r, outcome (get_frequency (OrderedFrequencyCache.view loaded) text_id) = inr r
         ∧ FrequencyResponse.total_words r = Z.of_nat (length tokens)
         ∧ FrequencyResponse.unique_words r = Z.of_nat (length (remove_dups tokens)).
Proof.
  intros loaded tokens.
  assert (OrderedFrequencyCache.get loaded text_id
          = Some (CachedText.mk (title (replace_underscores text_id)) content
                    (compute_frequencies lower content))) as Hget.
  { by apply load_texts_first_file. }
  split; [exact Hget|].
  rewrite <- ocache_view_get in Hget.
  rewrite (get_frequency_found _ _ _ Hget). eexists. split; [done|].
  cbn [FrequencyResponse.total_words FrequencyResponse.unique_words
       CachedText.frequencies].
  split.
  - apply Counter_of_list_sum.
  - unfold Counter.len.
    rewrite <- (length_fmap fst (compute_frequencies lower content)).
    fold (Counter.keys (compute_frequencies lower content)).
    rewrite compute_frequencies_keys_reverse, length_reverse.
    f_equal. apply Permutation_length.
    apply NoDup_Permutation; [apply NoDup_remove_dups..|].
    intros w. by rewrite !elem_of_remove_dups, elem_of_reverse.
Qed.

Lemma load_texts_from_disk_caches_alice :
  OrderedFrequencyCache.get
    (load_texts_from_disk ascii_lower (λ s, s)
       (Some ([(lit "moby_dick", lit "Call me Ishmael")]
              ++ (lit "alice", lit "Alice was, Alice is") :: []))
       stale_cache)
    (lit "alice")
  = Some (CachedText.mk (lit "alice") (lit "Alice was, Alice is")
            [(lit "alice", 2); (lit "was", 1); (lit "is", 1)]).
Proof.
  refine (proj1 (load_texts_from_disk_caches_new_file ascii_lower (λ s, s)
                   stale_cache [(lit "moby_dick", lit "Call me Ishmael")] []
                   (lit "alice") (lit "Alice was, Alice is") _ _)).
  - reflexivity.
  - apply (bool_decide_unpack _). by vm_compute.
Defined.

(** Loading the same directory again changes nothing. *)
Theorem load_texts_from_disk_idempotent
  (lower title : str → str) (data_dir : option (list (str * str)))
  (cache : OrderedFrequencyCache.t) :
  load_texts_from_disk lower title data_dir
    (load_texts_from_disk lower title data_dir cache)
  = load_texts_from_disk lower title data_dir cache.
Proof.
  destruct data_dir as [txt_files|]; [|done]. cbn [load_texts_from_disk].
  apply load_texts_nothing_new. apply Forall_forall.
  intros f Hf. by apply load_texts_cover.
Qed.

(** ** What the responses say *)

Lemma sum_app l1 l2 : sum (l1 ++ l2) = sum l1 + sum l2.
Proof. unfold sum. induction l1 as [|x l1 IH]; simpl; lia. Qed.

Lemma sum_perm l1 l2 : l1 ≡ₚ l2 → sum l1 = sum l2.
Proof. unfold sum. induction 1; simpl; lia. Qed.

(** The frequency response of a cached document is coherent: the counts it
    lists add up to [total_words], there are [unique_words] of them, they
    never increase along the list, and the (word, count) pairs listed are the
    items of the cached table, each once. *)
Theorem get_frequency_response_coherent
  (cache : FrequencyCache.t) (text_id : str) (cached : CachedText.t)
  (Hget : FrequencyCache.get cache text_id = Some cached) :
  ∃ r,
    outcome (get_frequency cache text_id) = inr r
    ∧ sum (WordFrequency.count <$> FrequencyResponse.frequencies r)
      = FrequencyResponse.total_words r
    ∧ Z.of_nat (length (FrequencyResponse.frequencies r))
      = FrequencyResponse.unique_words r
    ∧ (∀ (i j : nat) a b,
         (i ≤ j)%nat →
         FrequencyResponse.frequencies r !! i = Some a →
         FrequencyResponse.frequencies r !! j = Some b →
         WordFrequency.count b ≤ WordFrequency.count a)
    ∧ (λ wf, (WordFrequency.word wf, WordFrequency.count wf))
        <$> FrequencyResponse.frequencies r
      ≡ₚ CachedText.frequencies cached.
Proof.
  rewrite (get_frequency_found cache text_id cached Hget).
  eexists. split; [done|].
  cbn [FrequencyResponse.frequencies FrequencyResponse.total_words
       FrequencyResponse.unique_words].
  set (c := CachedText.frequencies cached).
  assert ((λ wf, (WordFrequency.word wf, WordFrequency.count wf))
            <$> ((λ '(word, count), WordFrequency.mk word count)
                   <$> Counter.most_common c)
          = Counter.most_common c) as Hitems.
  { rewrite <- list_fmap_compose. rewrite <- (list_fmap_id (Counter.most_common c)) at 2.
    apply list_fmap_ext. by intros _ [word count] _. }
  split; [|split; [|split]].
  - transitivity (sum (Counter.values (Counter.most_common c))).
    + f_equal. unfold Counter.values. rewrite <- list_fmap_compose.
      apply list_fmap_ext. by intros _ [word count] _.
    + apply sum_perm. unfold Counter.values. by rewrite most_common_perm.
  - unfold Counter.len. by rewrite length_fmap, most_common_perm.
  - intros i j a b Hij Ha Hb.
    rewrite list_lookup_fmap in Ha, Hb.
    destruct (Counter.most_common c !! i) as [[wa na]|] eqn:Hi; [|done].
    destruct (Counter.most_common c !! j) as [[wb nb]|] eqn:Hj; [|done].
    injection Ha as <-. injection Hb as <-. cbn.
    apply (most_common_desc c i j (wa, na) (wb, nb)); done.
  - rewrite Hitems. apply most_common_perm.
Qed.

Lemma get_frequency_sample_coherent :
  ∃ r,
    outcome (get_frequency sample_cache (lit "sample")) = inr r
    ∧ sum (WordFrequency.count <$> FrequencyResponse.frequencies r)
      = FrequencyResponse.total_words r.
Proof.
  assert (FrequencyCache.get sample_cache (lit "sample")
          = Some (CachedText.mk (lit "Sample Text") sample_text
                    (compute_frequencies ascii_lower sample_text))) as Hget
    by by vm_compute.
  destruct (get_frequency_response_coherent sample_cache (lit "sample") _ Hget)
    as (r & Hr & Hsum & _).
  exists r. split; [exact Hr | exact Hsum].
Defined.

Lemma most_common_head_count (c : Counter.t) item :
  Counter.most_common c !! 0%nat = Some item →
  compute_zipf_constant c = inject_Z item.2.
Proof.
  intros Hhead.
  pose proof (most_common_1_is_head c) as H1.
  destruct c as [|x l]; [done|].
  unfold compute_zipf_constant. rewrite H1.
  destruct (Counter.most_common (x :: l)) as [|top rest]; [done|].
  cbn in Hhead. injection Hhead as ->. cbn. by destruct item.
Qed.

(** In the Zipf response of a cached document whose counts are between 1
    and [2^53], the constant is the float that [compute_zipf_constant]
    returns, the entry of rank 1 has the constant both as its frequency and as
    its expected frequency, no entry has a frequency above the constant, and
    the total is the sum of the frequencies listed. *)
Theorem get_zipf_constant_is_top_frequency
  (cache : FrequencyCache.t) (text_id : str) (cached : CachedText.t)
  (Hget : FrequencyCache.get cache text_id = Some cached)
  (Hcounts : Forall (λ kv, 1 ≤ kv.2 ≤ 2 ^ 53) (CachedText.frequencies cached)) :
  ∃ r,
    outcome (get_zipf cache text_id) = inr r
    ∧ compute_zipf_constant_binary64 (CachedText.frequencies cached)
      = inr (ZipfResponse.zipf_constant r)
    ∧ (∀ p, ZipfResponse.data r !! 0%nat = Some p →
            ZipfDataPoint.rank p = 1
            ∧ ZipfResponse.zipf_constant r = inject_Z (ZipfDataPoint.frequency p)
            ∧ (ZipfDataPoint.expected_frequency p
               == inject_Z (ZipfDataPoint.frequency p))%Q)
    ∧ Forall (λ p, (inject_Z (ZipfDataPoint.frequency p)
                    <= ZipfResponse.zipf_constant r)%Q)
        (ZipfResponse.data r)
    ∧ sum (ZipfDataPoint.frequency <$> ZipfResponse.data r)
      = ZipfResponse.total_words r.
Proof.
  rewrite (get_zipf_found cache text_id cached Hget).
  eexists. split; [done|].
  cbn [ZipfResponse.data ZipfResponse.zipf_constant ZipfResponse.total_words].
  set (c := CachedText.frequencies cached) in *.
  split; [|split; [|split]].
  - apply compute_zipf_constant_binary64_exact.
    destruct c as [|x l] eqn:Hc; [vm_compute; split; discriminate|].
    pose proof (max_count_elem (x :: l) ltac:(done)) as Hin.
    unfold Counter.values in Hin. apply list_elem_of_fmap in Hin as (kv & -> & Hkv).
    rewrite Forall_forall in Hcounts. apply Hcounts in Hkv. lia.
  - intros p Hp. pose proof Hp as Hp'.
    apply zipf_series_expected in Hp' as [Hrank Hexp].
    apply zipf_series_lookup in Hp as (word & frequency & Hhead & ->).
    cbn [ZipfDataPoint.frequency zipf_point ZipfDataPoint.rank] in *.
    pose proof (most_common_head_count c _ Hhead) as Hzc. cbn [snd] in Hzc.
    split; [done|]. split; [done|].
    rewrite Hexp, Hzc. change (1 + Z.of_nat 0) with 1.
    unfold Qeq, Qdiv, Qmult, Qinv, inject_Z. simpl. lia.
  - apply Forall_lookup. intros i p Hp.
    apply zipf_series_lookup in Hp as (word & frequency & Hi & ->).
    cbn [ZipfDataPoint.frequency zipf_point ZipfDataPoint.rank] in *.
    assert (c ≠ []) as Hne.
    { intros Hc. rewrite Hc in Hi. done. }
    rewrite compute_zipf_constant_max_count by done.
    rewrite <- Zle_Qle.
    pose proof (max_count_upper c) as Hup. rewrite Forall_forall in Hup.
    apply Hup. unfold Counter.values.
    apply (list_elem_of_fmap_2 snd _ (word, frequency)).
    rewrite <- most_common_perm. by eapply list_elem_of_lookup_2.
  - unfold zipf_series. rewrite zipf_data_frequencies.
    apply sum_perm. unfold Counter.values. by rewrite most_common_perm.
Qed.

Lemma get_zipf_sample_top :
  ∃ r,
    outcome (get_zipf sample_cache (lit "sample")) = inr r
    ∧ compute_zipf_constant_binary64
        (compute_frequencies ascii_lower sample_text)
      = inr (ZipfResponse.zipf_constant r)
    ∧ sum (ZipfDataPoint.frequency <$> ZipfResponse.data r)
      = ZipfResponse.total_words r.
Proof.
  assert (FrequencyCache.get sample_cache (lit "sample")
          = Some (CachedText.mk (lit "Sample Text") sample_text
                    (compute_frequencies ascii_lower sample_text))) as Hget
    by by vm_compute.
  assert (Forall (λ kv : str * Z, 1 ≤ kv.2 ≤ 2 ^ 53)
            (compute_frequencies ascii_lower sample_text)) as Hcounts.
  { apply (bool_decide_unpack _). by vm_compute. }
  destruct (get_zipf_constant_is_top_frequency sample_cache (lit "sample") _
              Hget Hcounts)
    as (r & Hr & Hfloat & _ & _ & Hsum).
  exists r. split; [exact Hr|]. split; [exact Hfloat | exact Hsum].
Defined.

Lemma ocache_get_elem (cache : OrderedFrequencyCache.t) k v :
  OrderedFrequencyCache.get cache k = Some v → (k, v) ∈ cache.
Proof.
  induction cache as [|[k0 v0] rest IH]; [done|]. cbn.
  destruct (decide (k0 = k)) as [-> | Hne].
  - intros [= ->]. left.
  - intros Hget. right. by apply IH.
Qed.

Lemma list_texts_ids (cache : OrderedFrequencyCache.t) (ids : list str) :
  Forall (λ text_id, text_id ∈ OrderedFrequencyCache.list_ids cache) ids →
  TextInfo.id
    <$> omap (λ text_id,
                match OrderedFrequencyCache.get cache text_id with
                | Some cached =>
                    Some (TextInfo.mk text_id (CachedText.title cached)
                            (sum (Counter.values (CachedText.frequencies cached))))
                | None => None
                end) ids
  = ids.
Proof.
  induction 1 as [|text_id ids Hid Hids IH]; [done|]. cbn [omap list_omap].
  apply ocache_get_is_Some in Hid as [cached Hcached].
  rewrite Hcached. cbn. by rewrite IH.
Qed.

(** [list_texts] reports every cached text once, in the order of the cache,
    the texts just loaded included; when every entry holds the frequencies
    of its own content, the word count reported for a text is the number of
    tokens of its content, and it is the total that the frequency endpoint
    and the Zipf endpoint report for the same text. *)
Theorem list_texts_reports_every_text
  (lower title : str → str) (data_dir : option (list (str * str)))
  (cache : OrderedFrequencyCache.t)
  (Hids : NoDup (OrderedFrequencyCache.list_ids cache))
  (Hloaded : loaded_from_content lower cache) :
  let cache' := (list_texts lower title data_dir cache).1 in
  let result := (list_texts lower title data_dir cache).2 in
  cache' = load_texts_from_disk lower title data_dir cache
  ∧ TextInfo.id <$> result = OrderedFrequencyCache.list_ids cache'
  ∧ NoDup (TextInfo.id <$> result)
  ∧ Forall (λ info,
      ∃ cached fr zr,
        OrderedFrequencyCache.get cache' (TextInfo.id info) = Some cached
        ∧ TextInfo.title info = CachedText.title cached
        ∧ TextInfo.word_count info
          = Z.of_nat (length (tokenize (normalize_text lower
                                          (CachedText.content cached))))
        ∧ outcome (get_frequency (OrderedFrequencyCache.view cache')
                     (TextInfo.id info)) = inr fr
        ∧ FrequencyResponse.total_words fr = TextInfo.word_count info
        ∧ outcome (get_zipf (OrderedFrequencyCache.view cache')
                     (TextInfo.id info)) = inr zr
        ∧ ZipfResponse.total_words zr = TextInfo.word_count info)
      result.
Proof.
  intros cache' result. subst cache' result. unfold list_texts. cbn [fst snd].
  set (cache' := load_texts_from_disk lower title data_dir cache).
  destruct (load_texts_invariants lower title cache data_dir) as [Hnd' Hloaded'].
  specialize (Hnd' Hids). specialize (Hloaded' Hloaded). fold cache' in Hnd', Hloaded'.
  assert (TextInfo.id
            <$> omap (λ text_id,
                        match OrderedFrequencyCache.get cache' text_id with
                        | Some cached =>
                            Some (TextInfo.mk text_id (CachedText.title cached)
                                    (sum (Counter.values
                                            (CachedText.frequencies cached))))
                        | None => None
                        end) (OrderedFrequencyCache.list_ids cache')
          = OrderedFrequencyCache.list_ids cache') as Hresult.
  { apply list_texts_ids. by apply Forall_forall. }
  split; [done|]. split; [exact Hresult|]. split; [by rewrite Hresult|].
  apply Forall_forall. intros info Hinfo.
  apply list_elem_of_omap in Hinfo as (text_id & _ & Hinfo).
  destruct (OrderedFrequencyCache.get cache' text_id) as [cached|] eqn:Hcached; [|done].
  injection Hinfo as <-. cbn [TextInfo.id TextInfo.title TextInfo.word_count].
  pose proof (ocache_get_elem _ _ _ Hcached) as Helem.
  unfold loaded_from_content in Hloaded'. rewrite Forall_forall in Hloaded'.
  specialize (Hloaded' _ Helem). cbn [snd] in Hloaded'.
  assert (sum (Counter.values (CachedText.frequencies cached))
          = Z.of_nat (length (tokenize (normalize_text lower
                                          (CachedText.content cached))))) as Hsum.
  { rewrite Hloaded'. apply Counter_of_list_sum. }
  rewrite <- ocache_view_get in Hcached.
  exists cached. do 2 eexists.
  split; [by rewrite <- ocache_view_get|]. split; [done|]. split; [exact Hsum|].
  rewrite (get_frequency_found _ _ _ Hcached), (get_zipf_found _ _ _ Hcached).
  split; [done|]. split; [done|]. split; done.
Qed.

Lemma list_texts_after_loading_alice :
  TextInfo.id
    <$> (list_texts ascii_lower (λ s, s)
           (Some [(lit "alice", lit "Alice was, Alice is")]) []).2
  = [lit "alice"]
  ∧ TextInfo.word_count
      <$> (list_texts ascii_lower (λ s, s)
             (Some [(lit "alice", lit "Alice was, Alice is")]) []).2
    = [4].
Proof.
  pose proof (list_texts_reports_every_text ascii_lower (λ s, s)
                (Some [(lit "alice", lit "Alice was, Alice is")]) []
                (NoDup_nil_2 : NoDup (OrderedFrequencyCache.list_ids []))
                (Forall_nil_2 _)) as (_ & Hids & _).
  split; [exact Hids | reflexivity].
Defined.

(** ** File names *)

Lemma sub_spaces_with_underscore_chars in_run s :
  Forall (λ c, GutenbergDownloader.is_invalid_char c = false) s →
  Forall (λ c, GutenbergDownloader.is_invalid_char c = false ∧ isspace c = false)
    (GutenbergDownloader.sub_spaces_with_underscore in_run s).
Proof.
  intros Hs. revert in_run.
  induction Hs as [|c s Hc Hs IH]; intros in_run; [constructor|].
  cbn [GutenbergDownloader.sub_spaces_with_underscore].
  destruct (isspace c) eqn:Hsp.
  - destruct in_run; [apply IH|]. constructor; [done | apply IH].
  - constructor; [done | apply IH].
Qed.

Lemma sub_spaces_with_underscore_fixed in_run s :
  Forall (λ c, isspace c = false) s →
  GutenbergDownloader.sub_spaces_with_underscore in_run s = s.
Proof.
  intros Hs. revert in_run.
  induction Hs as [|c s Hc Hs IH]; intros in_run; [done|].
  cbn [GutenbergDownloader.sub_spaces_with_underscore]. by rewrite Hc, IH.
Qed.

Lemma filter_fixed {A} (P : A → Prop) `{∀ x, Decision (P x)} (l : list A) :
  Forall P l → filter P l = l.
Proof.
  induction 1 as [|x l Hx Hl IH]; [done|].
  by rewrite filter_cons, decide_True, IH.
Qed.

Lemma sanitize_filename_clean name :
  Forall (λ c, GutenbergDownloader.is_invalid_char c = false ∧ isspace c = false)
    (GutenbergDownloader._sanitize_filename name).
Proof.
  unfold GutenbergDownloader._sanitize_filename.
  apply Forall_take, sub_spaces_with_underscore_chars.
  apply Forall_forall. intros c Hc. by apply list_elem_of_filter in Hc as [? _].
Qed.

Lemma sanitize_filename_fixed name :
  Forall (λ c, GutenbergDownloader.is_invalid_char c = false ∧ isspace c = false) name →
  (length name ≤ 50)%nat →
  GutenbergDownloader._sanitize_filename name = name.
Proof.
  intros Hname Hlen. unfold GutenbergDownloader._sanitize_filename.
  rewrite filter_fixed, sub_spaces_with_underscore_fixed, take_ge; [done..| |].
  - eapply Forall_impl; [exact Hname|]. by intros c [_ ?].
  - eapply Forall_impl; [exact Hname|]. by intros c [? _].
Qed.

(** A sanitized name has at most 50 characters, none of them one of the
    nine characters removed and none of them white space. *)
Theorem sanitize_filename_is_safe (name : str) :
  (length (GutenbergDownloader._sanitize_filename name) ≤ 50)%nat
  ∧ Forall (λ c, GutenbergDownloader.is_invalid_char c = false ∧ isspace c = false)
      (GutenbergDownloader._sanitize_filename name).
Proof.
  split; [|apply sanitize_filename_clean].
  unfold GutenbergDownloader._sanitize_filename. rewrite length_take. lia.
Qed.

(** Sanitizing a sanitized name changes nothing, and a name of at most 50
    characters that has none of the nine characters and no white space is
    returned as it is. *)
Theorem sanitize_filename_idempotent (name : str) :
  GutenbergDownloader._sanitize_filename (GutenbergDownloader._sanitize_filename name)
  = GutenbergDownloader._sanitize_filename name
  ∧ (Forall (λ c, GutenbergDownloader.is_invalid_char c = false ∧ isspace c = false)
       name →
     (length name ≤ 50)%nat →
     GutenbergDownloader._sanitize_filename name = name).
Proof.
  split; [|apply sanitize_filename_fixed].
  apply sanitize_filename_fixed; [apply sanitize_filename_clean|].
  unfold GutenbergDownloader._sanitize_filename. rewrite length_take. lia.
Qed.

Lemma sanitize_filename_short_name :
  GutenbergDownloader._sanitize_filename (lit "Moby_Dick") = lit "Moby_Dick".
Proof.
  refine (proj2 (sanitize_filename_idempotent (lit "Moby_Dick")) _ _).
  - vm_compute. repeat constructor.
  - vm_compute. lia.
Defined.

Example sanitize_jekyll :
  GutenbergDownloader._sanitize_filename
    (lit "The Strange Case of Dr. Jekyll and Mr. Hyde: what?  A/B")
  = lit "The_Strange_Case_of_Dr._Jekyll_and_Mr._Hyde_what_A".
Proof. reflexivity. Qed.

(** ** Searching *)

Lemma starts_with_spec sub s :
  starts_with sub s = true ↔ ∃ rest, s = sub ++ rest.
Proof.
  revert s. induction sub as [|a sub IH]; intros s; cbn [starts_with].
  - split; [by exists s | done].
  - destruct s as [|b s].
    + split; [done | by intros [rest ?]].
    + rewrite andb_true_iff, N.eqb_eq, IH. split.
      * intros [-> [rest ->]]. by exists rest.
      * intros [rest [= -> ->]]. split; [done | by exists rest].
Qed.

Lemma find_at_range i sub s :
  find_at i sub s = -1
  ∨ (i ≤ find_at i sub s ∧ find_at i sub s ≤ i + Z.of_nat (length s)).
Proof.
  revert i. induction s as [|c s IH]; intros i; cbn [find_at].
  - destruct (starts_with sub []); [right; simpl; lia | by left].
  - destruct (starts_with sub (c :: s)); [right; simpl; lia|].
    destruct (IH (i + 1)) as [-> | H]; [by left|]. right. cbn [length]. lia.
Qed.

Lemma find_at_not_found i sub s :
  0 ≤ i → (find_at i sub s = -1 ↔ ¬ occurs sub s).
Proof.
  revert i. induction s as [|c s IH]; intros i Hi; cbn [find_at].
  - destruct (starts_with sub []) eqn:Hsw.
    + split; [lia|]. intros Hno. exfalso. apply Hno.
      apply starts_with_spec in Hsw as [rest Hrest]. by exists [], rest.
    + split; [|done]. intros _ (pre & post & Heq).
      symmetry in Heq. apply app_eq_nil in Heq as [-> Heq].
      apply app_eq_nil in Heq as [-> ->]. done.
  - destruct (starts_with sub (c :: s)) eqn:Hsw.
    + split; [lia|]. intros Hno. exfalso. apply Hno.
      apply starts_with_spec in Hsw as [rest Hrest]. by exists [], rest.
    + rewrite IH by lia. split.
      * intros Hno (pre & post & Heq). destruct pre as [|p pre].
        -- assert (starts_with sub (c :: s) = true); [|congruence].
           apply starts_with_spec. by exists post.
        -- injection Heq as -> Heq. apply Hno. by exists pre, post.
      * intros Hno (pre & post & Heq). apply Hno.
        exists (c :: pre), post. by rewrite Heq.
Qed.

Lemma find_at_found i sub s :
  0 ≤ i → find_at i sub s ≠ -1 →
  ∃ pre post,
    s = pre ++ sub ++ post
    ∧ find_at i sub s = i + Z.of_nat (length pre)
    ∧ (∀ pre' post', s = pre' ++ sub ++ post' → (length pre ≤ length pre')%nat).
Proof.
  revert i. induction s as [|c s IH]; intros i Hi; cbn [find_at].
  - destruct (starts_with sub []) eqn:Hsw; [|done]. intros _.
    apply starts_with_spec in Hsw as [rest Hrest].
    exists [], rest. split; [done|]. split; [simpl; lia|]. intros; simpl; lia.
  - destruct (starts_with sub (c :: s)) eqn:Hsw.
    + intros _. apply starts_with_spec in Hsw as [rest Hrest].
      exists [], rest. split; [done|]. split; [simpl; lia|]. intros; simpl; lia.
    + intros Hfound.
      destruct (IH (i + 1) ltac:(lia) Hfound) as (pre & post & -> & Hpos & Hmin).
      exists (c :: pre), post. split; [done|]. split; [rewrite Hpos; cbn [length]; lia|].
      intros pre' post' Heq. destruct pre' as [|p pre'].
      * assert (starts_with sub (c :: pre ++ sub ++ post) = true); [|congruence].
        apply starts_with_spec. by exists post'.
      * injection Heq as -> Heq. cbn [length]. specialize (Hmin _ _ Heq). lia.
Qed.

Lemma find_not_found s sub : find s sub = -1 ↔ ¬ occurs sub s.
Proof. by apply find_at_not_found. Qed.

Lemma find_found s sub :
  find s sub ≠ -1 →
  ∃ pre post,
    s = pre ++ sub ++ post
    ∧ find s sub = Z.of_nat (length pre)
    ∧ (∀ pre' post', s = pre' ++ sub ++ post' → (length pre ≤ length pre')%nat).
Proof.
  intros Hfound.
  destruct (find_at_found 0 sub s ltac:(lia) Hfound) as (pre & post & ? & ? & ?).
  exists pre, post. split; [done|]. split; [unfold find; lia | done].
Qed.

Lemma find_from_range s sub start :
  -1 ≤ find_from s sub start.
Proof.
  unfold find_from. cbn zeta.
  set (start' := if start <? 0 then Z.max 0 (start + Z.of_nat (length s)) else start).
  destruct (Z.of_nat (length s) <? start') eqn:Hlen; [lia|].
  apply Z.ltb_ge in Hlen.
  assert (0 ≤ start' ∨ start' < 0) as [Hpos | Hneg] by lia.
  - destruct (find_at_range start' sub (drop (Z.to_nat start') s)) as [-> | H]; lia.
  - subst start'. destruct (start <? 0) eqn:Hs; [lia|]. apply Z.ltb_ge in Hs. lia.
Qed.

(** ** Slices *)

Lemma part_of_refl s : part_of s s.
Proof. exists [], []. by rewrite app_nil_r. Qed.

Lemma part_of_trans a b c : part_of a b → part_of b c → part_of a c.
Proof.
  intros (p1 & q1 & ->) (p2 & q2 & ->).
  exists (p2 ++ p1), (q1 ++ q2). by rewrite <- !app_assoc.
Qed.

Lemma part_of_take n s : part_of (take n s) s.
Proof. exists [], (drop n s). by rewrite app_nil_l, take_drop. Qed.

Lemma part_of_drop n s : part_of (drop n s) s.
Proof. exists (take n s), []. by rewrite app_nil_r, take_drop. Qed.

Lemma slice_part_of s start stop : part_of (slice s start stop) s.
Proof.
  unfold slice. eapply part_of_trans; [apply part_of_take | apply part_of_drop].
Qed.

Lemma lstrip_part_of s : part_of (lstrip s) s.
Proof.
  induction s as [|c s IH]; [apply part_of_refl|]. cbn [lstrip].
  destruct (isspace c); [|apply part_of_refl].
  eapply part_of_trans; [exact IH|]. apply (part_of_drop 1 (c :: s)).
Qed.

Lemma rstrip_prefix s : ∃ post, s = rstrip s ++ post.
Proof.
  induction s as [|c s [post IH]]; [by exists []|]. cbn [rstrip].
  destruct (rstrip s) as [|d rest].
  - destruct (isspace c); [by exists (c :: s) | by exists s].
  - exists post. cbn [app] in *. by rewrite <- IH.
Qed.

Lemma rstrip_part_of s : part_of (rstrip s) s.
Proof. destruct (rstrip_prefix s) as [post Heq]. by exists [], post. Qed.

Lemma lstrip_head s c rest : lstrip s = c :: rest → isspace c = false.
Proof.
  induction s as [|x s IH]; [done|]. cbn [lstrip].
  destruct (isspace x) eqn:Hx; [done|]. by intros [= <- _].
Qed.

Lemma rstrip_last s init c : rstrip s = init ++ [c] → isspace c = false.
Proof.
  revert init. induction s as [|x s IH]; intros init.
  { by destruct init. }
  cbn [rstrip]. destruct (rstrip s) as [|d rest].
  - destruct (isspace x) eqn:Hx.
    + by destruct init.
    + destruct init as [|i init]; [by intros [= <-]|].
      intros [= _ Heq]. by destruct init.
  - destruct init as [|i init]; [done|].
    intros [= _ Heq]. by apply (IH init).
Qed.

Lemma strip_stripped s : stripped (strip s).
Proof.
  unfold strip. split.
  - intros c rest Heq. destruct (rstrip_prefix (lstrip s)) as [post Hpost].
    rewrite Heq in Hpost. by apply (lstrip_head s c (rest ++ post)).
  - intros init c Heq. by apply (rstrip_last (lstrip s) init).
Qed.

Lemma strip_part_of s : part_of (strip s) s.
Proof.
  unfold strip. eapply part_of_trans; [apply rstrip_part_of | apply lstrip_part_of].
Qed.

Lemma occurs_part_of sub part s : occurs sub part → part_of part s → occurs sub s.
Proof. apply part_of_trans. Qed.

Lemma slice_all s : slice s 0 (Z.of_nat (length s)) = s.
Proof.
  unfold slice, slice_index. cbn zeta.
  change (0 <? 0) with false. cbn iota.
  destruct (Z.of_nat (length s) <? 0) eqn:Hneg; [apply Z.ltb_lt in Hneg; lia|].
  rewrite Z.min_id, Z.min_l by lia.
  rewrite Z.sub_0_r, Nat2Z.id. cbn [Z.to_nat drop]. by apply take_ge.
Qed.

(** A slice that stops where [sub] is first found does not hold [sub]. *)
Lemma slice_before_first_occurrence s sub start :
  sub ≠ [] → 0 ≤ start → find s sub ≠ -1 →
  ¬ occurs sub (slice s start (find s sub)).
Proof.
  intros Hsub Hstart Hfound.
  destruct (find_found s sub Hfound) as (pre & post & Hs & Hpos & Hmin).
  assert (part_of (slice s start (find s sub)) pre) as Hpart.
  { rewrite Hpos. unfold slice, slice_index. cbn zeta.
    destruct (start <? 0) eqn:Hneg; [apply Z.ltb_lt in Hneg; lia|].
    destruct (Z.of_nat (length pre) <? 0) eqn:Hneg'; [apply Z.ltb_lt in Hneg'; lia|].
    assert (length pre ≤ length s)%nat as Hle.
    { rewrite Hs, length_app. lia. }
    rewrite (Z.min_l (Z.of_nat (length pre))) by lia.
    set (a := Z.min start (Z.of_nat (length s))).
    destruct (decide (a ≤ Z.of_nat (length pre))) as [Ha | Ha].
    - rewrite take_drop_commute.
      replace (Z.to_nat a + Z.to_nat (Z.of_nat (length pre) - a))%nat
        with (length pre) by lia.
      rewrite Hs, take_app_length. apply part_of_drop.
    - replace (Z.to_nat (Z.of_nat (length pre) - a)) with 0%nat by lia.
      cbn [take]. exists [], pre. done. }
  intros Hocc.
  destruct (occurs_part_of _ _ _ Hocc Hpart) as (p1 & p2 & Hpre).
  specialize (Hmin p1 (p2 ++ sub ++ post)).
  assert (length sub ≠ 0)%nat by (by destruct sub).
  assert (length pre = length p1 + length sub + length p2)%nat as Hlen.
  { rewrite Hpre, !length_app. lia. }
  enough (length pre ≤ length p1)%nat by lia.
  apply Hmin. rewrite Hs, Hpre. by rewrite <- !app_assoc.
Qed.

(** ** Stripping the boilerplate of a downloaded text *)

Lemma find_start_pos_nonneg text markers :
  0 ≤ GutenbergDownloader.find_start_pos text markers.
Proof.
  induction markers as [|m markers IH]; [done|].
  cbn [GutenbergDownloader.find_start_pos]. cbn zeta.
  destruct (negb (find text m =? -1)); [|done].
  destruct (negb (find_from text [NEWLINE] (find text m) =? -1)) eqn:Hnl; [|done].
  apply negb_true_iff, Z.eqb_neq in Hnl.
  pose proof (find_from_range text [NEWLINE] (find text m)). lia.
Qed.

Lemma find_start_pos_none text markers :
  Forall (λ m, ¬ occurs m text) markers →
  GutenbergDownloader.find_start_pos text markers = 0.
Proof.
  induction 1 as [|m markers Hm Hms IH]; [done|].
  cbn [GutenbergDownloader.find_start_pos]. cbn zeta.
  apply find_not_found in Hm. by rewrite Hm.
Qed.

Lemma find_end_pos_none text start_pos markers :
  Forall (λ m, ¬ occurs m text) markers →
  GutenbergDownloader.find_end_pos text start_pos markers = Z.of_nat (length text).
Proof.
  induction 1 as [|m markers Hm Hms IH]; [done|].
  cbn [GutenbergDownloader.find_end_pos]. cbn zeta.
  apply find_not_found in Hm. by rewrite Hm.
Qed.

Lemma find_end_pos_first text start_pos before marker after :
  Forall (λ m, find text m = -1 ∨ find text m ≤ start_pos) before →
  find text marker ≠ -1 → start_pos < find text marker →
  GutenbergDownloader.find_end_pos text start_pos (before ++ marker :: after)
  = find text marker.
Proof.
  intros Hbefore Hfound Hafter.
  induction Hbefore as [|m before Hm Hbefore IH];
    cbn [app GutenbergDownloader.find_end_pos]; cbn zeta.
  - assert (negb (find text marker =? -1) && (find text marker >? start_pos) = true)
      as ->; [|done].
    apply andb_true_iff. split; [by apply negb_true_iff, Z.eqb_neq | apply Z.gtb_lt; lia].
  - assert (negb (find text m =? -1) && (find text m >? start_pos) = false) as ->; [|done].
    apply andb_false_iff. destruct Hm as [-> | Hm]; [by left|].
    right. destruct (find text m >? start_pos) eqn:Hgt; [|done].
    apply Z.gtb_lt in Hgt. lia.
Qed.

(** What [_clean_text] returns is a stretch of the text, and has no white
    space at either end. *)
Theorem clean_text_is_stripped_part (text : str) :
  part_of (GutenbergDownloader._clean_text text) text
  ∧ stripped (GutenbergDownloader._clean_text text).
Proof.
  unfold GutenbergDownloader._clean_text. cbn zeta. split.
  - eapply part_of_trans; [apply strip_part_of | apply slice_part_of].
  - apply strip_stripped.
Qed.

(** A text in which none of the markers occurs is only stripped of the
    white space at its ends. *)
Theorem clean_text_without_markers (text : str)
  (Hnone : Forall (λ m, ¬ occurs m text)
             (GutenbergDownloader.start_markers ++ GutenbergDownloader.end_markers)) :
  GutenbergDownloader._clean_text text = strip text.
Proof.
  apply Forall_app in Hnone as [Hstart Hend].
  unfold GutenbergDownloader._clean_text. cbn zeta.
  by rewrite find_start_pos_none, find_end_pos_none, slice_all.
Qed.

(** The end marker at which [_clean_text] stops (the first of the list that
    is found after the start) does not occur in what is returned. *)
Theorem clean_text_stops_before_end_marker
  (text : str) (before after : list str) (marker : str)
  (Hmarkers : GutenbergDownloader.end_markers = before ++ marker :: after)
  (Hbefore : Forall (λ m, find text m = -1
                          ∨ find text m
                            ≤ GutenbergDownloader.find_start_pos text
                                GutenbergDownloader.start_markers) before)
  (Hfound : find text marker ≠ -1)
  (Hafter : GutenbergDownloader.find_start_pos text GutenbergDownloader.start_markers
            < find text marker) :
  ¬ occurs marker (GutenbergDownloader._clean_text text)
  ∧ find (GutenbergDownloader._clean_text text) marker = -1.
Proof.
  assert (¬ occurs marker (GutenbergDownloader._clean_text text)) as Hno.
  { unfold GutenbergDownloader._clean_text. cbn zeta.
    rewrite Hmarkers, find_end_pos_first by done.
    intros Hocc.
    eapply (slice_before_first_occurrence text marker); [| |exact Hfound|].
    - assert (Forall (λ m, m ≠ []) GutenbergDownloader.end_markers) as Hne.
      { unfold GutenbergDownloader.end_markers. repeat constructor; done. }
      rewrite Hmarkers in Hne. apply Forall_app in Hne as [_ Hne].
      by apply Forall_inv in Hne.
    - apply find_start_pos_nonneg.
    - eapply occurs_part_of; [exact Hocc | apply strip_part_of]. }
  split; [exact Hno | by apply find_not_found].
Qed.

Lemma clean_text_plain_text :
  GutenbergDownloader._clean_text (lit "  Call me Ishmael. ") = lit "Call me Ishmael.".
Proof.
  rewrite clean_text_without_markers; [reflexivity|].
  repeat constructor; apply find_not_found; reflexivity.
Defined.

Lemma clean_text_sample :
  find (GutenbergDownloader._clean_text gutenberg_sample)
    (lit "*** END OF THIS PROJECT GUTENBERG") = -1
  ∧ GutenbergDownloader._clean_text gutenberg_sample = lit "Call me Ishmael.".
Proof.
  split; [|reflexivity].
  refine (proj2 (clean_text_stops_before_end_marker gutenberg_sample []
                   (lit "*** END OF THE PROJECT GUTENBERG"
                    :: lit "End of Project Gutenberg"
                    :: lit "End of the Project Gutenberg" :: [])
                   (lit "*** END OF THIS PROJECT GUTENBERG") _ _ _ _)).
  - reflexivity.
  - constructor.
  - by vm_compute.
  - by vm_compute.
Defined.

(** ** Extracting the text of a Gutenberg file *)

Lemma find_start_idx_nonneg text markers :
  0 ≤ ProcessText.find_start_idx text markers.
Proof.
  induction markers as [|m markers IH]; [done|].
  cbn [ProcessText.find_start_idx]. cbn zeta.
  destruct (negb (find text m =? -1)); [|done].
  pose proof (find_from_range text [NEWLINE] (find text m)). lia.
Qed.

Lemma find_start_idx_none text markers :
  Forall (λ m, ¬ occurs m text) markers →
  ProcessText.find_start_idx text markers = 0.
Proof.
  induction 1 as [|m markers Hm Hms IH]; [done|].
  cbn [ProcessText.find_start_idx]. cbn zeta.
  apply find_not_found in Hm. by rewrite Hm.
Qed.

Lemma find_end_idx_none text markers :
  Forall (λ m, ¬ occurs m text) markers →
  ProcessText.find_end_idx text markers = Z.of_nat (length text).
Proof.
  induction 1 as [|m markers Hm Hms IH]; [done|].
  cbn [ProcessText.find_end_idx]. cbn zeta.
  apply find_not_found in Hm. by rewrite Hm.
Qed.

Lemma find_end_idx_first text before marker after :
  Forall (λ m, find text m = -1) before →
  find text marker ≠ -1 →
  ProcessText.find_end_idx text (before ++ marker :: after) = find text marker.
Proof.
  intros Hbefore Hfound.
  induction Hbefore as [|m before Hm Hbefore IH];
    cbn [app ProcessText.find_end_idx]; cbn zeta.
  - apply Z.eqb_neq in Hfound. by rewrite Hfound.
  - by rewrite Hm.
Qed.

Lemma extract_gutenberg_text_is_part_aux (text : str) :
  part_of (ProcessText.extract_gutenberg_text text) text
  ∧ (Forall (λ m, ¬ occurs m text)
       (ProcessText.start_markers ++ ProcessText.end_markers) →
     ProcessText.extract_gutenberg_text text = text).
Proof.
  unfold ProcessText.extract_gutenberg_text. cbn zeta.
  split; [apply slice_part_of|].
  intros [Hstart Hend]%Forall_app.
  by rewrite find_start_idx_none, find_end_idx_none, slice_all.
Qed.

(** [extract_gutenberg_text] returns a stretch of the text, and the whole
    text when none of the markers occurs in it. *)
Theorem extract_gutenberg_text_is_part (text : str) :
  part_of (ProcessText.extract_gutenberg_text text) text
  ∧ (Forall (λ m, ¬ occurs m text)
       (ProcessText.start_markers ++ ProcessText.end_markers) →
     ProcessText.extract_gutenberg_text text = text).
Proof.
  unfold ProcessText.extract_gutenberg_text. cbn zeta.
  split; [apply slice_part_of|].
  intros [Hstart Hend]%Forall_app.
  by rewrite find_start_idx_none, find_end_idx_none, slice_all.
Qed.

Lemma extract_gutenberg_text_plain_text :
  ProcessText.extract_gutenberg_text (lit "Call me Ishmael.") = lit "Call me Ishmael.".
Proof.
  apply (proj2 (extract_gutenberg_text_is_part (lit "Call me Ishmael."))).
  repeat constructor; apply find_not_found; reflexivity.
Defined.

(** The end marker at which [extract_gutenberg_text] stops (the first of the
    list that is found) does not occur in what is returned. *)
Theorem extract_gutenberg_text_stops_before_end_marker
  (text : str) (before after : list str) (marker : str)
  (Hmarkers : ProcessText.end_markers = before ++ marker :: after)
  (Hbefore : Forall (λ m, find text m = -1) before)
  (Hfound : find text marker ≠ -1) :
  ¬ occurs marker (ProcessText.extract_gutenberg_text text)
  ∧ find (ProcessText.extract_gutenberg_text text) marker = -1.
Proof.
  assert (¬ occurs marker (ProcessText.extract_gutenberg_text text)) as Hno.
  { unfold ProcessText.extract_gutenberg_text. cbn zeta.
    rewrite Hmarkers, find_end_idx_first by done.
    apply slice_before_first_occurrence; [| |done].
    - assert (Forall (λ m, m ≠ []) ProcessText.end_markers) as Hne.
      { unfold ProcessText.end_markers. repeat constructor; done. }
      rewrite Hmarkers in Hne. apply Forall_app in Hne as [_ Hne].
      by apply Forall_inv in Hne.
    - apply find_start_idx_nonneg. }
  split; [exact Hno | by apply find_not_found].
Qed.

Lemma extract_gutenberg_text_sample :
  find (ProcessText.extract_gutenberg_text gutenberg_sample)
    (lit "*** END OF THIS PROJECT GUTENBERG EBOOK") = -1
  ∧ ProcessText.extract_gutenberg_text gutenberg_sample
    = lit "Call me Ishmael." ++ [NEWLINE].
Proof.
  split; [|reflexivity].
  refine (proj2 (extract_gutenberg_text_stops_before_end_marker gutenberg_sample
                   [lit "*** END OF THE PROJECT GUTENBERG EBOOK"]
                   [lit "End of Project Gutenberg"]
                   (lit "*** END OF THIS PROJECT GUTENBERG EBOOK") _ _ _)).
  - reflexivity.
  - repeat constructor.
  - by vm_compute.
Defined.

(** ** The corpus and its statistics *)

Lemma collect_results_fields (self : GutenbergDownloader.t) results :
  GutenbergDownloader.metadata (GutenbergDownloader.collect_results self results)
  = GutenbergDownloader.metadata self ++ downloaded results
  ∧ GutenbergDownloader.total_size (GutenbergDownloader.collect_results self results)
    = GutenbergDownloader.total_size self
      + sum (TextMetadata.size_bytes <$> downloaded results).
Proof.
  unfold GutenbergDownloader.collect_results, downloaded.
  revert self. induction results as [|r results IH]; intros self.
  - cbn. rewrite app_nil_r. split; [done | unfold sum; simpl; lia].
  - cbn [foldl]. destruct (IH (GutenbergDownloader.collect_result self r)) as [-> ->].
    destruct r as [m| |]; cbn [GutenbergDownloader.collect_result omap list_omap];
      cbn [GutenbergDownloader.metadata GutenbergDownloader.total_size].
    + rewrite <- app_assoc. split; [done|].
      rewrite fmap_cons. unfold sum at 2. cbn [foldr]. fold (sum (TextMetadata.size_bytes
        <$> omap (λ r, match r with Downloaded m => Some m | _ => None end) results)).
      lia.
    + done.
    + done.
Qed.

(** [download_corpus] adds to [metadata] the texts that were downloaded, in
    the order of the results, leaves out the failures, and adds their sizes
    to [total_size]: if [total_size] was the sum of the sizes of [metadata]
    before, as it is after [__init__], it is so afterwards. *)
Theorem download_corpus_keeps_total_size
  (self : GutenbergDownloader.t) (results : list download_result) :
  let self' := GutenbergDownloader.collect_results self results in
  GutenbergDownloader.metadata self'
  = GutenbergDownloader.metadata self ++ downloaded results
  ∧ GutenbergDownloader.total_size self'
    = GutenbergDownloader.total_size self
      + sum (TextMetadata.size_bytes <$> downloaded results)
  ∧ (GutenbergDownloader.total_size self
     = sum (TextMetadata.size_bytes <$> GutenbergDownloader.metadata self) →
     GutenbergDownloader.total_size self'
     = sum (TextMetadata.size_bytes <$> GutenbergDownloader.metadata self'))
  ∧ GutenbergDownloader.total_size
      (GutenbergDownloader.collect_results GutenbergDownloader.init results)
    = sum (TextMetadata.size_bytes
             <$> GutenbergDownloader.metadata
                   (GutenbergDownloader.collect_results
                      GutenbergDownloader.init results)).
Proof.
  intros self'. subst self'.
  destruct (collect_results_fields self results) as [Hm Ht].
  split; [exact Hm|]. split; [exact Ht|]. split.
  - intros Hinv. rewrite Ht, Hm, Hinv, fmap_app, sum_app. done.
  - destruct (collect_results_fields GutenbergDownloader.init results) as [-> ->].
    unfold GutenbergDownloader.init.
    cbn [GutenbergDownloader.metadata GutenbergDownloader.total_size app]. lia.
Qed.

Lemma by_genre_get_add m (by_genre : list (str * GenreStats.t)) genre :
  by_genre_get (GutenbergDownloader.by_genre_add m by_genre) genre
  = if decide (TextMetadata.genre m = genre)
    then Some (match by_genre_get by_genre genre with
               | Some st =>
                   GenreStats.mk (GenreStats.count st + 1)
                     (GenreStats.size_bytes st + TextMetadata.size_bytes m)
               | None => GenreStats.mk 1 (TextMetadata.size_bytes m)
               end)
    else by_genre_get by_genre genre.
Proof.
  induction by_genre as [|[g st] rest IH];
    cbn [GutenbergDownloader.by_genre_add by_genre_get].
  - destruct (decide (TextMetadata.genre m = genre)); done.
  - destruct (decide (g = TextMetadata.genre m)) as [-> | Hne]; cbn [by_genre_get].
    + destruct (decide (TextMetadata.genre m = genre)); done.
    + rewrite IH. destruct (decide (g = genre)) as [-> | Hne']; [|done].
      by rewrite decide_False.
Qed.

Lemma by_genre_add_keys m (by_genre : list (str * GenreStats.t)) :
  (GutenbergDownloader.by_genre_add m by_genre).*1
  = if decide (TextMetadata.genre m ∈ by_genre.*1) then by_genre.*1
    else by_genre.*1 ++ [TextMetadata.genre m].
Proof.
  induction by_genre as [|[g st] rest IH]; [done|].
  cbn [GutenbergDownloader.by_genre_add].
  destruct (decide (g = TextMetadata.genre m)) as [-> | Hne]; rewrite !fmap_cons; cbn [fst].
  - rewrite decide_True; [done | left].
  - rewrite IH. destruct (decide (TextMetadata.genre m ∈ rest.*1)) as [Hin | Hnin].
    + rewrite decide_True; [done | by right].
    + rewrite decide_False; [done|]. intros Hin.
      apply elem_of_cons in Hin as [Heq | Hin]; done.
Qed.

Lemma by_genre_add_totals m (by_genre : list (str * GenreStats.t)) :
  sum (GenreStats.count <$> (GutenbergDownloader.by_genre_add m by_genre).*2)
  = sum (GenreStats.count <$> by_genre.*2) + 1
  ∧ sum (GenreStats.size_bytes <$> (GutenbergDownloader.by_genre_add m by_genre).*2)
    = sum (GenreStats.size_bytes <$> by_genre.*2) + TextMetadata.size_bytes m.
Proof.
  unfold sum.
  induction by_genre as [|[g st] rest [IH1 IH2]];
    cbn [GutenbergDownloader.by_genre_add].
  - cbn. lia.
  - destruct (decide (g = TextMetadata.genre m)); cbn in *; lia.
Qed.

Lemma of_genre_nil genre (metadata : list TextMetadata.t) :
  genre ∉ TextMetadata.genre <$> metadata → of_genre genre metadata = [].
Proof.
  intros Hnin. unfold of_genre.
  destruct (filter _ metadata) as [|m rest] eqn:Hfilter; [done|].
  exfalso. apply Hnin.
  assert (m ∈ filter (λ m, TextMetadata.genre m = genre) metadata) as Hm
    by (rewrite Hfilter; left).
  apply list_elem_of_filter in Hm as [<- Hm]. by apply list_elem_of_fmap_2.
Qed.

Lemma by_genre_fold (metadata : list TextMetadata.t) :
  let by_genre :=
    foldl (λ acc m, GutenbergDownloader.by_genre_add m acc) [] metadata in
  (∀ genre,
     by_genre_get by_genre genre
     = if decide (genre ∈ TextMetadata.genre <$> metadata)
       then Some (GenreStats.mk
                    (Z.of_nat (length (of_genre genre metadata)))
                    (sum (TextMetadata.size_bytes <$> of_genre genre metadata)))
       else None)
  ∧ NoDup by_genre.*1
  ∧ (∀ genre, genre ∈ by_genre.*1 ↔ genre ∈ TextMetadata.genre <$> metadata)
  ∧ sum (GenreStats.count <$> by_genre.*2) = Z.of_nat (length metadata)
  ∧ sum (GenreStats.size_bytes <$> by_genre.*2)
    = sum (TextMetadata.size_bytes <$> metadata).
Proof.
  cbn zeta.
  induction metadata as [|m metadata (IHget & IHnd & IHkeys & IHc & IHs)] using rev_ind.
  { cbn. split; [done|]. split; [apply NoDup_nil_2|]. split; [done|]. done. }
  rewrite foldl_snoc.
  set (acc := foldl (λ acc m, GutenbergDownloader.by_genre_add m acc) [] metadata) in *.
  destruct (by_genre_add_totals m acc) as [Hc Hs].
  split; [|split; [|split; [|split]]].
  - intros genre. rewrite by_genre_get_add, IHget.
    assert (of_genre genre (metadata ++ [m])
            = of_genre genre metadata
              ++ (if decide (TextMetadata.genre m = genre) then [m] else [])) as ->.
    { unfold of_genre. by rewrite filter_app, filter_cons, filter_nil. }
    assert (genre ∈ TextMetadata.genre <$> metadata ++ [m]
            ↔ genre ∈ TextMetadata.genre <$> metadata ∨ TextMetadata.genre m = genre)
      as Hsnoc.
    { rewrite fmap_app, elem_of_app. cbn. rewrite list_elem_of_singleton.
      split; (intros [? | ?]; [by left | by right]). }
    destruct (decide (TextMetadata.genre m = genre)) as [Heq | Hne],
             (decide (genre ∈ TextMetadata.genre <$> metadata)) as [Hin | Hnin],
             (decide (genre ∈ TextMetadata.genre <$> metadata ++ [m])) as [Hin' | Hnin'];
      try (exfalso; apply Hnin'; apply Hsnoc; by auto);
      try (apply Hsnoc in Hin' as [? | ?]; done).
    + f_equal. rewrite length_app, fmap_app, sum_app. cbn [length].
      f_equal; unfold sum; cbn; lia.
    + f_equal. rewrite (of_genre_nil genre metadata Hnin).
      cbn. f_equal; unfold sum; cbn; lia.
    + by rewrite app_nil_r.
    + done.
  - rewrite by_genre_add_keys. case_decide; [done|].
    apply NoDup_app. split; [done|]. split; [|apply NoDup_singleton].
    intros x Hx Hx'. apply list_elem_of_singleton in Hx' as ->. done.
  - intros genre. rewrite by_genre_add_keys, fmap_app, elem_of_app, <- IHkeys.
    cbn. rewrite list_elem_of_singleton.
    case_decide as Hin; [|by rewrite elem_of_app, list_elem_of_singleton].
    split; [by left|]. intros [? | ->]; done.
  - rewrite Hc, IHc, length_app. cbn. lia.
  - rewrite Hs, IHs, fmap_app, sum_app. unfold sum. cbn. lia.
Qed.

(** When [get_stats] computes from the downloader's own [metadata] (some text
    is held, or there is no metadata file), [by_genre] holds one entry per
    genre met, with the number of texts of that genre and the sum of their
    sizes; the counts add up to [total_texts], the sizes to the sum of the
    sizes of the texts, which is [total_size_bytes] when [total_size] is kept
    as [download_corpus] keeps it. *)
Theorem get_stats_by_genre
  (self : GutenbergDownloader.t) (metadata_file : option (Z * Z))
  (Hown : GutenbergDownloader.metadata self ≠ [] ∨ metadata_file = None) :
  let stats := GutenbergDownloader.get_stats self metadata_file in
  let metadata := GutenbergDownloader.metadata self in
  Stats.total_texts stats = Z.of_nat (length metadata)
  ∧ (∀ genre,
       by_genre_get (Stats.by_genre stats) genre
       = if decide (genre ∈ TextMetadata.genre <$> metadata)
         then Some (GenreStats.mk
                      (Z.of_nat (length (of_genre genre metadata)))
                      (sum (TextMetadata.size_bytes <$> of_genre genre metadata)))
         else None)
  ∧ NoDup (Stats.by_genre stats).*1
  ∧ sum (GenreStats.count <$> (Stats.by_genre stats).*2) = Stats.total_texts stats
  ∧ sum (GenreStats.size_bytes <$> (Stats.by_genre stats).*2)
    = sum (TextMetadata.size_bytes <$> metadata)
  ∧ (GutenbergDownloader.total_size self = sum (TextMetadata.size_bytes <$> metadata) →
     sum (GenreStats.size_bytes <$> (Stats.by_genre stats).*2)
     = Stats.total_size_bytes stats).
Proof.
  intros stats metadata. subst stats metadata.
  destruct (by_genre_fold (GutenbergDownloader.metadata self))
    as (Hget & Hnd & _ & Hc & Hs).
  assert (GutenbergDownloader.get_stats self metadata_file
          = Stats.mk (Z.of_nat (length (GutenbergDownloader.metadata self)))
              (GutenbergDownloader.total_size self)
              (inject_Z (GutenbergDownloader.total_size self) / inject_Z (1024 ^ 3))%Q
              (foldl (λ acc m, GutenbergDownloader.by_genre_add m acc) []
                 (GutenbergDownloader.metadata self))) as ->.
  { unfold GutenbergDownloader.get_stats.
    destruct (GutenbergDownloader.metadata self) as [|m ms]; [|done].
    destruct Hown as [? | ->]; done. }
  cbn [Stats.total_texts Stats.by_genre Stats.total_size_bytes].
  split; [done|]. split; [exact Hget|]. split; [exact Hnd|]. split; [exact Hc|].
  split; [exact Hs|]. intros Hinv. by rewrite Hs, Hinv.
Qed.

Lemma get_stats_two_genres :
  ∃ hamlet emma,
    TextMetadata.genre hamlet = lit "plays"
    ∧ TextMetadata.genre emma = lit "classic_literature"
    ∧ Stats.total_texts
        (GutenbergDownloader.get_stats
           (GutenbergDownloader.collect_results GutenbergDownloader.init
              [Downloaded hamlet; NotDownloaded; Downloaded emma; Raised])
           (Some (7, 7)))
      = 2.
Proof.
  exists (TextMetadata.mk 1524 (lit "Hamlet") (lit "William Shakespeare") (lit "plays")
            (lit "en") 180000 (lit "raw/plays/1524_Hamlet.txt") (lit "url")),
         (TextMetadata.mk 158 (lit "Emma") (lit "Jane Austen") (lit "classic_literature")
            (lit "en") 900000 (lit "raw/classic_literature/158_Emma.txt") (lit "url")).
  split; [reflexivity|]. split; [reflexivity|].
  refine (proj1 (get_stats_by_genre _ (Some (7, 7)) _)).
  left. by vm_compute.
Defined.

(** ** Counting the words of a file *)

Section ProcessTextFacts.

Variable lower : str → str.
Variable is_word_char : N → bool.
Variable isdigit : str → bool.

Lemma process_text_words_kept text :
  Forall (λ w, w ≠ [] ∧ Forall (λ c, isspace c = false) w ∧ isdigit w = false)
    (process_text_words lower is_word_char isdigit text).
Proof.
  unfold process_text_words. cbn zeta. apply Forall_forall. intros w Hw.
  apply list_elem_of_filter in Hw as [Hkeep Hw].
  apply andb_true_iff in Hkeep as [_ Hdigit]. apply negb_true_iff in Hdigit.
  pose proof (split_words (lower (filter (λ c, is_word_char c || isspace c = true) text)))
    as Hwords.
  rewrite Forall_forall in Hwords. destruct (Hwords w Hw) as [Hne Hnosp]. done.
Qed.

End ProcessTextFacts.

(** The result of [process_text] is about the words kept: [total_words] is
    their number, [unique_words] the number of distinct ones, the frequencies
    are their counts, never increasing along the dictionary, and no word
    kept is empty, holds white space or is made of digits only. *)
Theorem process_text_counts_kept_words
  (lower : str → str) (is_word_char : N → bool) (isdigit : str → bool)
  (content : str) :
  let r := process_text lower is_word_char isdigit content in
  let words :=
    process_text_words lower is_word_char isdigit
      (ProcessText.extract_gutenberg_text content) in
  ProcessTextResult.total_words r = Z.of_nat (length words)
  ∧ ProcessTextResult.unique_words r = Z.of_nat (length (remove_dups words))
  ∧ ProcessTextResult.frequencies r ≡ₚ Counter.of_list words
  ∧ (∀ w, Counter_getitem (Counter.of_list words) w
          = Z.of_nat (length (filter (λ tok, tok = w) words)))
  ∧ (∀ (i j : nat) a b,
       (i ≤ j)%nat →
       ProcessTextResult.frequencies r !! i = Some a →
       ProcessTextResult.frequencies r !! j = Some b → b.2 ≤ a.2)
  ∧ Forall (λ w, w ≠ [] ∧ Forall (λ c, isspace c = false) w ∧ isdigit w = false)
      words.
Proof.
  intros r words. subst r. unfold process_text. cbn zeta. fold words.
  cbn [ProcessTextResult.total_words ProcessTextResult.unique_words
       ProcessTextResult.frequencies].
  split; [|split; [|split; [|split; [|split]]]].
  - rewrite <- (Counter_of_list_sum words). apply sum_perm.
    unfold Counter.values. by rewrite most_common_perm.
  - unfold Counter.len. rewrite most_common_perm.
    rewrite <- (length_fmap fst (Counter.of_list words)).
    fold (Counter.keys (Counter.of_list words)).
    rewrite Counter_of_list_keys, length_reverse.
    f_equal. apply Permutation_length.
    apply NoDup_Permutation; [apply NoDup_remove_dups..|].
    intros w. by rewrite !elem_of_remove_dups, elem_of_reverse.
  - apply most_common_perm.
  - intros w. unfold Counter.of_list. rewrite getitem_count_elements. simpl. lia.
  - intros i j a b. apply most_common_desc.
  - apply process_text_words_kept.
Qed.

Lemma filter_word_chars_letters (is_word_char : N → bool) w :
  Forall (λ c, is_word_char c = true) w →
  filter (λ c, is_word_char c || isspace c = true) w = w.
Proof.
  intros Hw. apply filter_fixed. eapply Forall_impl; [exact Hw|].
  intros c Hc. cbn beta. by rewrite Hc.
Qed.

(** [process_text] deletes punctuation where it stands: two runs of ASCII
    letters with one character between them that is neither of [\w] nor
    white space are counted as one word, the two runs joined, where
    [normalize_text] makes two tokens of them. *)
Theorem process_text_joins_around_punctuation
  (lower : str → str) (is_word_char : N → bool) (isdigit : str → bool)
  (u v : str) (c : N)
  (Hlower : lower_on_ascii lower)
  (Hword : ∀ x, is_ascii_letter x = true → is_word_char x = true)
  (Hdigit : ∀ w, Forall (λ x, is_az x = true) w → isdigit w = false)
  (Hu : u ≠ []) (Hv : v ≠ [])
  (Hlu : Forall (λ x, is_ascii_letter x = true) u)
  (Hlv : Forall (λ x, is_ascii_letter x = true) v)
  (Hc : is_ascii c = true) (Hcw : is_word_char c = false) (Hcs : isspace c = false)
  (Hmarkers : Forall (λ m, ¬ occurs m (u ++ c :: v))
                (ProcessText.start_markers ++ ProcessText.end_markers)) :
  process_text lower is_word_char isdigit (u ++ c :: v)
  = ProcessTextResult.mk 1 1 [(ascii_lower (u ++ v), 1)]
  ∧ tokenize (normalize_text lower (u ++ c :: v)) = [ascii_lower u; ascii_lower v].
Proof.
  assert (is_ascii_letter c = false) as Hcl.
  { destruct (is_ascii_letter c) eqn:Hl; [|done]. apply Hword in Hl. congruence. }
  split.
  - unfold process_text. cbn zeta.
    rewrite (proj2 (extract_gutenberg_text_is_part_aux (u ++ c :: v)) Hmarkers).
    assert (process_text_words lower is_word_char isdigit (u ++ c :: v)
            = [ascii_lower (u ++ v)]) as ->; [|done].
    unfold process_text_words. cbn zeta.
    rewrite filter_app, filter_cons, decide_False by (cbn beta; by rewrite Hcw, Hcs).
    rewrite !filter_word_chars_letters
      by (eapply Forall_impl; [eassumption|]; apply Hword).
    assert (Forall (λ x, is_az x = true) (ascii_lower (u ++ v))) as Haz.
    { apply ascii_lower_letters, Forall_app. done. }
    rewrite Hlower.
    2:{ apply Forall_app. split; (eapply Forall_impl; [eassumption|]);
          apply is_ascii_letter_ascii. }
    assert (is_word (ascii_lower (u ++ v))) as Hw.
    { apply az_word; [|done]. destruct u; [done|]. done. }
    unfold split. rewrite (split_go_word _ Hw).
    destruct (ascii_lower (u ++ v)) as [|x w] eqn:Hxw; [by destruct Hw|].
    cbn [push_word]. rewrite filter_cons, filter_nil.
    rewrite decide_True; [done|].
    apply andb_true_iff. split; [done|]. apply negb_true_iff. by apply Hdigit.
  - rewrite normalize_text_separator by done.
    rewrite tokenize_split.
    apply split_separator; [| |done].
    + apply az_word; [by destruct u | by apply ascii_lower_letters].
    + apply az_word; [by destruct v | by apply ascii_lower_letters].
Qed.

Lemma process_text_quick_brown :
  process_text ascii_lower ascii_is_word_char ascii_isdigit (lit "quick-brown")
  = ProcessTextResult.mk 1 1 [(lit "quickbrown", 1)]
  ∧ tokenize (normalize_text ascii_lower (lit "quick-brown"))
    = [lit "quick"; lit "brown"].
Proof.
  refine (process_text_joins_around_punctuation ascii_lower ascii_is_word_char
            ascii_isdigit (lit "quick") (lit "brown") 0x2D%N
            ascii_lower_on_ascii _ _ _ _ _ _ _ _ _ _).
  - intros x Hx. unfold ascii_is_word_char. by rewrite Hx.
  - intros w Hw. unfold ascii_isdigit.
    destruct w as [|x w]; [done|]. apply Forall_inv in Hw.
    cbn [forallb]. apply andb_false_iff. right. apply andb_false_iff. left.
    char_arith.
  - done.
  - done.
  - vm_compute. repeat constructor.
  - vm_compute. repeat constructor.
  - reflexivity.
  - reflexivity.
  - reflexivity.
  - repeat constructor; apply find_not_found; reflexivity.
Defined.

(** ** A text without words *)

(** A cached text whose lowercased content has no letter [a-z] is answered,
    not refused: the frequency endpoint returns no word and zero totals, the
    Zipf endpoint returns no point and a constant of 0.0. *)
Theorem text_without_letters_is_answered_empty
  (lower : str → str) (cache : FrequencyCache.t) (text_id : str)
  (cached : CachedText.t)
  (Hget : FrequencyCache.get cache text_id = Some cached)
  (Hfreq : CachedText.frequencies cached
           = compute_frequencies lower (CachedText.content cached))
  (Hblank : Forall (λ c, is_az c = false) (lower (CachedText.content cached))) :
  outcome (get_frequency cache text_id)
  = inr (FrequencyResponse.mk text_id (CachedText.title cached) 0 0 [])
  ∧ outcome (get_zipf cache text_id)
    = inr (ZipfResponse.mk text_id (CachedText.title cached) 0 0%Q []).
Proof.
  assert (CachedText.frequencies cached = []) as Hempty.
  { rewrite Hfreq. unfold compute_frequencies. cbn zeta.
    by rewrite normalize_text_no_letter. }
  rewrite (get_frequency_found cache text_id cached Hget).
  rewrite (get_zipf_found cache text_id cached Hget).
  rewrite Hempty. done.
Qed.

Lemma blank_text_is_answered_empty :
  outcome (get_zipf blank_cache (lit "blank"))
  = inr (ZipfResponse.mk (lit "blank") (lit "Blank") 0 0%Q []).
Proof.
  refine (proj2 (text_without_letters_is_answered_empty ascii_lower blank_cache
                   (lit "blank")
                   (CachedText.mk (lit "Blank") (lit "1234 -- 5678 !?")
                      (compute_frequencies ascii_lower (lit "1234 -- 5678 !?")))
                   _ _ _)).
  - by vm_compute.
  - reflexivity.
  - vm_compute. repeat constructor.
Defined.
